(** * bitpeers: peer-database statistics (main.go)

    A shallow embedding of the statistics pipeline of [main.go] and the
    properties of its stages: the age estimator [ApproxAge], the snapshot
    locator [ClosestBitnodeTS]/[BinSearch], the reachability matcher and age
    bucketer of [ComputeStats], [OldestIP], and the control flow of [main].

    Conventions.
    - A Go [uint32] is a [Z] in [0, 2^32); subtraction wraps ([uint32_sub]).
    - A Go [int] is a [Z]; its width is 32 or 64 bits depending on the
      platform ([int_size]); the conversion [int(x)] of a [uint32] is
      [int_of_uint32].  Lengths and counters never reach the width, so
      additions on them are plain additions.
    - A Go [float64] is a primitive binary64 float; the conversion
      [float64(n)] of a count, which is below 2^63, rounds to nearest, to
      even on a tie ([float64]).
    - A file read with [bufio.Scanner] is the list of the tokens that the
      scanner yields: the lines without their line end, up to the first line
      that is too long for the scanner, since the code does not check the
      error of the scan.
    - A run-time panic (index or slice bound out of range) is a value of
      [outcome]; recursion that Go does not bound is bounded by fuel. *)

From Stdlib Require Import ZArith List Sorted Lia Floats Uint63 Ascii DecimalString.
From stdpp Require Import gmap strings list.

Local Open Scope Z_scope.

(** ** Go values *)

Module Go.

Definition uint32_max : Z := 2 ^ 32.

Definition is_uint32 (z : Z) : Prop := 0 <= z < uint32_max.

(** The conversion [uint32(z)] of an integer. *)
Definition uint32 (z : Z) : Z := z mod uint32_max.

(** [a - b] on [uint32] operands. *)
Definition uint32_sub (a b : Z) : Z := uint32 (a - b).

(** The width of [int]. *)
Inductive int_size := Int32 | Int64.

Definition int_bits (sz : int_size) : Z :=
  match sz with Int32 => 32 | Int64 => 64 end.

(** The conversion [int(x)] of a [uint32]: the low bits, read as a signed
    number. *)
Definition int_of_uint32 (sz : int_size) (x : Z) : Z :=
  let m := 2 ^ int_bits sz in
  let r := x mod m in
  if r <? m / 2 then r else r - m.

(** The conversion [float64(n)] of a count. *)
Definition float64 (n : Z) : float := PrimFloat.of_uint63 (Uint63.of_Z n).

(** What a run-time panic reports. *)
Inductive panic :=
| IndexOutOfRange (i : Z) (len : nat)
| SliceBoundsOutOfRange (j : Z) (len : nat).

(** The outcome of a call: a value, a panic, or the fuel ran out. *)
Inductive outcome (A : Type) :=
| Ok (a : A)
| Panicked (p : panic)
| NoFuel.
Arguments Ok {A} a.
Arguments Panicked {A} p.
Arguments NoFuel {A}.

Definition bind {A B} (r : outcome A) (k : A -> outcome B) : outcome B :=
  match r with
  | Ok a => k a
  | Panicked p => Panicked p
  | NoFuel => NoFuel
  end.

Definition map_outcome {A B} (f : A -> B) (r : outcome A) : outcome B :=
  bind r (fun a => Ok (f a)).

(** [l[i]] *)
Definition index {A} (l : list A) (i : Z) : outcome A :=
  if i <? 0 then Panicked (IndexOutOfRange i (length l))
  else match l !! Z.to_nat i with
       | Some x => Ok x
       | None => Panicked (IndexOutOfRange i (length l))
       end.

(** [s[:j]] on a string *)
Definition slice_to (s : string) (j : Z) : outcome string :=
  if (j <? 0) || (Z.of_nat (String.length s) <? j)
  then Panicked (SliceBoundsOutOfRange j (String.length s))
  else Ok (String.substring 0 (Z.to_nat j) s).

(** [strconv.Itoa] on a number that is not negative. *)
Definition Itoa (n : Z) : string := NilZero.string_of_uint (N.to_uint (Z.to_N n)).

End Go.
Import Go.

Notation "x ← r ; k" := (bind r (fun x => k))
  (at level 20, r at level 100, k at level 200, only parsing, right associativity).

(** ** The peer database

    [main.go] uses the types [PeersDB] and [CAddrInfo] and the method
    [PeerAddress.String] of its package, which another file of the package
    declares. *)

(** Modelled from the spec: the network address of a record, an address and
    a port; the type of [PeerAddress] is not declared in [main.go]. *)
Record CService := { IPAddress : string; Port : Z }.

(** Modelled from the spec: the string form of a network address, the
    address followed by its port ("address+port", the port a suffix of as
    many digits as the port number has): the address, a colon and the port
    in decimal.  [main.go] calls it as [PeerAddress.String()]; the method is
    not declared there. *)
Definition CService_String (a : CService) : string :=
  (IPAddress a ++ ":" ++ Itoa (Port a))%string.

(** Modelled from the spec: a record carries a network address and a
    last-seen timestamp, an unsigned 32-bit number of seconds; the fields
    are the ones [main.go] reads, [Address.Time] and [Address.PeerAddress]. *)
Record CAddress := { Time : Z; PeerAddress : CService }.

Record CAddrInfo := { Address : CAddress }.

(** Modelled from the spec: the decoded snapshot, the two tables with the
    count that the header declares for each; the fields are the ones
    [main.go] reads. *)
Record PeersDB := {
  NNew : Z;
  NTried : Z;
  NewAddrInfo : list CAddrInfo;
  TriedAddrInfo : list CAddrInfo
}.

(** ** Snapshot locator *)

(** [BinSearch]: modified binary search for the closest value. *)
Fixpoint BinSearch (fuel : nat) (low high : Z) (elem : Z) (tsArray : list Z)
  : outcome Z :=
  match fuel with
  | O => NoFuel
  | S fuel' =>
      let mid := (high + low) ÷ 2 in
      tm ← index tsArray mid;
      if tm =? elem then Ok elem
      else if mid =? low then
        tl ← index tsArray low;
        th ← index tsArray high;
        if uint32_sub elem tl <? uint32_sub th elem then Ok tl else Ok th
      else if elem <? tm then BinSearch fuel' low mid elem tsArray
      else BinSearch fuel' mid high elem tsArray
  end.

(** [ClosestBitnodeTS]: [tsLines] holds what [strconv.Atoi] yields for the
    tokens that the scanner yields for the timestamp file: its lines
    without their line end (nor a carriage return before it), up to the
    first line that is too long for the scanner (64 KiB), where the scan
    stops; no token when the file cannot be opened. *)
Definition ClosestBitnodeTS (tsLines : list Z) (approxAge : Z) : outcome Z :=
  let tsArray := map uint32 tsLines in
  BinSearch (S (length tsArray)) 0 (Z.of_nat (length tsArray)) approxAge tsArray.

(** ** Oldest record and age estimator *)

(** [OldestIP]: the timestamp of the oldest record. *)
Definition OldestIP (table : list CAddrInfo) : Z :=
  fold_left
    (fun oldestIP a =>
       if oldestIP >? Time (Address a) then Time (Address a) else oldestIP)
    table 2000000000.

(** One loop of [ApproxAge]: [n] more iterations from index [i] on. *)
Fixpoint ApproxAge_loop (n : nat) (i : Z) (table : list CAddrInfo)
  (approxAge : Z) : outcome Z :=
  match n with
  | O => Ok approxAge
  | S n' =>
      a ← index table i;
      ApproxAge_loop n' (i + 1) table
        (if approxAge <? Time (Address a) then Time (Address a) else approxAge)
  end.

(** [ApproxAge]: guesses the time the database was saved. *)
Definition ApproxAge (peersDb : PeersDB) : outcome Z :=
  approxAge ← ApproxAge_loop (Z.to_nat (NNew peersDb)) 0 (NewAddrInfo peersDb) 0;
  ApproxAge_loop (Z.to_nat (NTried peersDb)) 0 (TriedAddrInfo peersDb) approxAge.

(** ** Age bucketer *)

Record AgeBuckets := {
  LessThanOne : Z;
  OneToFive : Z;
  FiveToTen : Z;
  TenToThirty : Z;
  GreaterThanThirty : Z
}.

Definition ONE_DAY : Z := 24 * 60 * 60.
Definition FIVE_DAYS : Z := 5 * ONE_DAY.
Definition TEN_DAYS : Z := 2 * FIVE_DAYS.
Definition THIRTY_DAYS : Z := 3 * TEN_DAYS.

(** [AddToAgeBucket]: computes the age and increments its bucket. *)
Definition AddToAgeBucket (sz : int_size) (ageBucket : AgeBuckets)
  (ipTimestamp approxAge : Z) : AgeBuckets :=
  let ipAge := int_of_uint32 sz (uint32_sub approxAge ipTimestamp) in
  let '{| LessThanOne := a1; OneToFive := a2; FiveToTen := a3;
          TenToThirty := a4; GreaterThanThirty := a5 |} := ageBucket in
  if ipAge <=? ONE_DAY then
    {| LessThanOne := a1 + 1; OneToFive := a2; FiveToTen := a3;
       TenToThirty := a4; GreaterThanThirty := a5 |}
  else if ipAge <? FIVE_DAYS then
    {| LessThanOne := a1; OneToFive := a2 + 1; FiveToTen := a3;
       TenToThirty := a4; GreaterThanThirty := a5 |}
  else if ipAge <? TEN_DAYS then
    {| LessThanOne := a1; OneToFive := a2; FiveToTen := a3 + 1;
       TenToThirty := a4; GreaterThanThirty := a5 |}
  else if ipAge <? THIRTY_DAYS then
    {| LessThanOne := a1; OneToFive := a2; FiveToTen := a3;
       TenToThirty := a4 + 1; GreaterThanThirty := a5 |}
  else
    {| LessThanOne := a1; OneToFive := a2; FiveToTen := a3;
       TenToThirty := a4; GreaterThanThirty := a5 + 1 |}.

(** ** Reachability matcher and result aggregator *)

Record Result := {
  NumberOfReachableIPs : Z;
  TotalIPs : Z;
  Percentage : float;
  OldestIPAge : Z;
  Age : AgeBuckets
}.

(** [CreateResult]: a result whose fields are all zero. *)
Definition CreateResult : Result :=
  {| NumberOfReachableIPs := 0; TotalIPs := 0; Percentage := 0%float;
     OldestIPAge := 0;
     Age := {| LessThanOne := 0; OneToFive := 0; FiveToTen := 0;
               TenToThirty := 0; GreaterThanThirty := 0 |} |}.

(** The address as it is put in the map: [ip[:len(ip)-5]]. *)
Definition clip_port (ip : string) : outcome string :=
  slice_to ip (Z.of_nat (String.length ip) - 5).

(** The first two loops of [ComputeStats], one run per table: every record's
    clipped address goes in the map and its age in a bucket. *)
Fixpoint table_loop (sz : int_size) (approxAge : Z) (table : list CAddrInfo)
  (seenHashMap : gmap string bool) (age : AgeBuckets)
  : outcome (gmap string bool * AgeBuckets) :=
  match table with
  | [] => Ok (seenHashMap, age)
  | a :: rest =>
      let ip := CService_String (PeerAddress (Address a)) in
      bare ← clip_port ip;
      table_loop sz approxAge rest (<[bare := true]> seenHashMap)
        (AddToAgeBucket sz age (Time (Address a)) approxAge)
  end.

(** The scan of the bitnode file, a token of the scanner at a time. *)
Fixpoint scan_loop (lines : list string)
  (newSeenHashMap triedSeenHashMap : gmap string bool)
  (newReachableIPs triedReachableIPs : list string) (totalIPCount : Z)
  : list string * list string * Z :=
  match lines with
  | [] => (newReachableIPs, triedReachableIPs, totalIPCount)
  | ip :: rest =>
      let newReachableIPs :=
        match newSeenHashMap !! ip with
        | Some _ => newReachableIPs ++ [ip]
        | None => newReachableIPs
        end in
      let triedReachableIPs :=
        match triedSeenHashMap !! ip with
        | Some _ => triedReachableIPs ++ [ip]
        | None => triedReachableIPs
        end in
      scan_loop rest newSeenHashMap triedSeenHashMap
        newReachableIPs triedReachableIPs (totalIPCount + 1)
  end.

Definition len {A} (l : list A) : Z := Z.of_nat (length l).

(** [ComputeStats]: [bitnodeLines] holds the tokens that the scanner yields
    for the bitnode file, not the lines of the file as they are: a token is
    a line without its line end (nor a carriage return before it), and the
    scan stops, its error unchecked, at the first line that is too long for
    the scanner (64 KiB); no token when the file cannot be opened. *)
Definition ComputeStats (sz : int_size) (bitnodeLines : list string)
  (approxAge : Z) (newTableIPs triedTableIPs : list CAddrInfo)
  : outcome (Result * Result) :=
  newLoop ← table_loop sz approxAge newTableIPs ∅ (Age CreateResult);
  triedLoop ← table_loop sz approxAge triedTableIPs ∅ (Age CreateResult);
  let '(newSeenHashMap, newAge) := newLoop in
  let '(triedSeenHashMap, triedAge) := triedLoop in
  let '(newReachableIPs, triedReachableIPs, _) :=
    scan_loop bitnodeLines newSeenHashMap triedSeenHashMap [] [] 0 in
  Ok ({| NumberOfReachableIPs := len newReachableIPs;
         TotalIPs := len newTableIPs;
         Percentage := float64 (len newReachableIPs) / float64 (len newTableIPs);
         OldestIPAge := OldestIP newTableIPs;
         Age := newAge |},
      {| NumberOfReachableIPs := len triedReachableIPs;
         TotalIPs := len triedTableIPs;
         Percentage := float64 (len triedReachableIPs) / float64 (len triedTableIPs);
         OldestIPAge := OldestIP triedTableIPs;
         Age := triedAge |}).

(** ** Output *)

(** The conversion to [int] of an integer result: the low bits, signed. *)
Definition int_wrap (sz : int_size) (z : Z) : Z :=
  let m := 2 ^ int_bits sz in
  let r := z mod m in
  if r <? m / 2 then r else r - m.

(** The fields of a line of a statistics file, in the order of its header,
    before they are rendered as text: the date is the instant [approxAge]
    and the percentage is not yet rounded to two decimals. *)
Record Row := {
  Approx_Peerdat_Date : Z;
  Oldest_IP_Days : Z;
  Total_IPs : Z;
  PercentReachable : float;
  Age_1 : Z;
  Age_1_5 : Z;
  Age_5_10 : Z;
  Age_10_30 : Z;
  Age_30 : Z
}.

(** [daysOldestIP] of [pretty]. *)
Definition daysOldestIP (sz : int_size) (approxAge oldestIPAge : Z) : Z :=
  int_wrap sz (int_of_uint32 sz approxAge - int_of_uint32 sz oldestIPAge) ÷ ONE_DAY.

(** The closure [pretty] of [WriteOutput]. *)
Definition pretty (sz : int_size) (approxAge : Z) (result : Result) : Row :=
  {| Approx_Peerdat_Date := approxAge;
     Oldest_IP_Days := daysOldestIP sz approxAge (OldestIPAge result);
     Total_IPs := TotalIPs result;
     PercentReachable := Percentage result * 100;
     Age_1 := LessThanOne (Age result);
     Age_1_5 := OneToFive (Age result);
     Age_5_10 := FiveToTen (Age result);
     Age_10_30 := TenToThirty (Age result);
     Age_30 := GreaterThanThirty (Age result) |}.

(** [WriteOutput]: the line of each of the two files, below the header. *)
Definition WriteOutput (sz : int_size) (approxAge : Z)
  (newResult triedResult : Result) : Row * Row :=
  (pretty sz approxAge newResult, pretty sz approxAge triedResult).

(** The line feed that ends a line of a file. *)
Definition newline : string := String "010"%char EmptyString.

(** [WriteArrayToFile]: [file] is what the file holds, and the result what
    it holds after the elements have been written, a line each. *)
Definition WriteArrayToFile (file : string) (array : list string) : string :=
  fold_left (fun file s => (file ++ (s ++ newline))%string) array file.

(** ** The run *)

(** What a run reads: the value and the error [NewPeersDB] returns for
    [peers.dat] (the decoder belongs to another file of the package), and
    what the scanner yields for the timestamp file (the numbers of its
    tokens) and for the bitnode files (their tokens), by the number in
    their name. *)
Record World := {
  NewPeersDB : PeersDB * option string;
  tsFile : list Z;
  bitnodeFile : Z -> list string
}.

(** What a run does, in order: the error it prints and the stages it calls. *)
Inductive event :=
| Println (err : string)
| Call_ApproxAge (peersDb : PeersDB)
| Call_ClosestBitnodeTS (approxAge : Z)
| Call_ComputeStats (bitnodeTS approxAge : Z)
| Call_WriteOutput (approxAge : Z) (newResult triedResult : Result).

Definition traced (A : Type) : Type := list event * outcome A.

Definition call {A} (e : event) (r : outcome A) : traced A := ([e], r).

Definition tbind {A B} (m : traced A) (k : A -> traced B) : traced B :=
  match m with
  | (t, Ok a) => let '(t', r) := k a in (t ++ t', r)
  | (t, Panicked p) => (t, Panicked p)
  | (t, NoFuel) => (t, NoFuel)
  end.

Notation "x ⇐ m ; k" := (tbind m (fun x => k))
  (at level 20, m at level 100, k at level 200, only parsing, right associativity).

(** [main] *)
Definition main (sz : int_size) (w : World) : traced (Row * Row) :=
  let '(rawPeersDB, err) := NewPeersDB w in
  _ ⇐ match err with
      | Some e => ([Println e], Ok tt)
      | None => ([], Ok tt)
      end;
  let peersDb := rawPeersDB in
  approxAge ⇐ call (Call_ApproxAge peersDb) (ApproxAge peersDb);
  bitnodeTS ⇐ call (Call_ClosestBitnodeTS approxAge)
                (ClosestBitnodeTS (tsFile w) approxAge);
  results ⇐ call (Call_ComputeStats bitnodeTS approxAge)
              (ComputeStats sz (bitnodeFile w (int_of_uint32 sz bitnodeTS))
                 approxAge (NewAddrInfo peersDb) (TriedAddrInfo peersDb));
  call (Call_WriteOutput approxAge results.1 results.2)
    (Ok (WriteOutput sz approxAge results.1 results.2)).

(** A statistics stage: anything a run does but print the decoding error. *)
Definition is_stage (e : event) : bool :=
  match e with
  | Println _ => false
  | _ => true
  end.

(** * Vocabulary of the properties *)

Definition empty_db : PeersDB :=
  {| NNew := 0; NTried := 0; NewAddrInfo := []; TriedAddrInfo := [] |}.

Definition failed_world : World :=
  {| NewPeersDB := (empty_db, Some "unexpected EOF"%string);
     tsFile := [100; 200];
     bitnodeFile := fun _ => [] |}.

Definition timestamps (table : list CAddrInfo) : list Z :=
  map (fun a => Time (Address a)) table.

(** The minimum of a sentinel and of the members of a list. *)
Definition min_with_sentinel (sentinel : Z) (l : list Z) : Z :=
  foldr Z.min sentinel l.

Inductive bucket := B_1 | B_1_5 | B_5_10 | B_10_30 | B_30.

(** The buckets with one more record in bucket [k]. *)
Definition bump (k : bucket) (b : AgeBuckets) : AgeBuckets :=
  match k with
  | B_1 => {| LessThanOne := LessThanOne b + 1; OneToFive := OneToFive b;
              FiveToTen := FiveToTen b; TenToThirty := TenToThirty b;
              GreaterThanThirty := GreaterThanThirty b |}
  | B_1_5 => {| LessThanOne := LessThanOne b; OneToFive := OneToFive b + 1;
                FiveToTen := FiveToTen b; TenToThirty := TenToThirty b;
                GreaterThanThirty := GreaterThanThirty b |}
  | B_5_10 => {| LessThanOne := LessThanOne b; OneToFive := OneToFive b;
                 FiveToTen := FiveToTen b + 1; TenToThirty := TenToThirty b;
                 GreaterThanThirty := GreaterThanThirty b |}
  | B_10_30 => {| LessThanOne := LessThanOne b; OneToFive := OneToFive b;
                  FiveToTen := FiveToTen b; TenToThirty := TenToThirty b + 1;
                  GreaterThanThirty := GreaterThanThirty b |}
  | B_30 => {| LessThanOne := LessThanOne b; OneToFive := OneToFive b;
               FiveToTen := FiveToTen b; TenToThirty := TenToThirty b;
               GreaterThanThirty := GreaterThanThirty b + 1 |}
  end.

(** The bucket of an age, by the five ranges. *)
Definition bucket_of_age (ipAge : Z) : bucket :=
  if ipAge <=? ONE_DAY then B_1
  else if ipAge <? FIVE_DAYS then B_1_5
  else if ipAge <? TEN_DAYS then B_5_10
  else if ipAge <? THIRTY_DAYS then B_10_30
  else B_30.

Definition bucket_sum (b : AgeBuckets) : Z :=
  LessThanOne b + OneToFive b + FiveToTen b + TenToThirty b
  + GreaterThanThirty b.

(** The string form of a record's address. *)
Definition address_string (a : CAddrInfo) : string :=
  CService_String (PeerAddress (Address a)).

(** A record whose address string has the five characters that are clipped. *)
Definition clippable (a : CAddrInfo) : Prop :=
  (5 <= String.length (address_string a))%nat.

(** The tokens of the scan of the bitnode file that are keys of a map. *)
Definition found_in (seen : gmap string bool) (lines : list string) : list string :=
  filter (fun ip => is_Some (seen !! ip)) lines.

Definition peer (ip : string) (port time : Z) : CAddrInfo :=
  {| Address := {| Time := time;
                   PeerAddress := {| IPAddress := ip; Port := port |} |} |}.

Definition sample_table : list CAddrInfo :=
  [peer "1.2.3.4" 8333 90; peer "9.9.9.9" 8333 95].

(** The number 1 of [float64], as sign, mantissa and exponent. *)
Definition SF_one : spec_float := S754_finite false 4503599627370496 (-52).

(** The end of a rounding of [float64]: the rounded mantissa [mr] is
    brought back to 53 digits. *)
Definition finish (sx : bool) (mr e1 : Z) : spec_float :=
  let '(mrs'', e'') := shr_fexp prec emax mr e1 loc_Exact in
  match shr_m mrs'' with
  | Z0 => S754_zero sx
  | Zpos m =>
      if Z.leb e'' (Z.sub emax prec) then S754_finite sx m e''
      else S754_infinity sx
  | _ => S754_nan
  end.

(** A mantissa [n] after [j] shifts to the right, with the last digit that
    was shifted out and whether a digit before it was not zero. *)
Definition shifted (n : Z) (j : nat) : shr_record :=
  {| shr_m := n / 2 ^ Z.of_nat j;
     shr_r := (0 <? Z.of_nat j) && (2 ^ (Z.of_nat j - 1) <=? n mod 2 ^ Z.of_nat j);
     shr_s := (0 <? Z.of_nat j) && negb (n mod 2 ^ (Z.of_nat j - 1) =? 0) |}.

(** [n] without its last [k] digits, rounded to nearest, to even on a
    tie. *)
Definition rounded (n k : Z) : Z :=
  round_nearest_even (n / 2 ^ k)
    (loc_of_shr_record
       {| shr_m := n / 2 ^ k;
          shr_r := (0 <? k) && (2 ^ (k - 1) <=? n mod 2 ^ k);
          shr_s := (0 <? k) && negb (n mod 2 ^ (k - 1) =? 0) |}).

(** The mantissa, of 53 digits, and the exponent of the [float64] of a
    positive integer below 2^63. *)
Definition norm (n : Z) : Z * Z :=
  let d := Z.log2 n + 1 in
  if d <=? 53 then (n * 2 ^ (53 - d), d - 53)
  else
    let k := d - 53 in
    if rounded n k <? 2 ^ 53 then (rounded n k, k) else (2 ^ 52, k + 1).

(** [r] is a member of [l] that no member is closer to [elem] than, and the
    later one of two such members. *)
Definition closest_later (l : list Z) (elem r : Z) : Prop :=
  r ∈ l
  /\ forall x, x ∈ l ->
       Z.abs (r - elem) <= Z.abs (x - elem)
       /\ (Z.abs (x - elem) = Z.abs (r - elem) -> x <= r).

(** The window [low, high) of a call of [BinSearch]: the candidate at [low]
    is not after the target, the one at [high] is after it when there is
    one, and a window that still ends at the length of the sequence has more
    than one element. *)
Record window (tsArray : list Z) (elem low high : Z) : Prop := {
  window_low : 0 <= low;
  window_lt : low < high;
  window_high : high <= len tsArray;
  window_below : forall x, tsArray !! Z.to_nat low = Some x -> x <= elem;
  window_above : forall y, tsArray !! Z.to_nat high = Some y -> elem < y;
  window_end : high = len tsArray -> low + 1 < high
}.

(** [r] is a member of [l] that no member is closer to [elem] than, and the
    earlier one of two such members. *)
Definition closest_earlier (l : list Z) (elem r : Z) : Prop :=
  r ∈ l
  /\ forall x, x ∈ l ->
       Z.abs (r - elem) <= Z.abs (x - elem)
       /\ (Z.abs (x - elem) = Z.abs (r - elem) -> r <= x).

(** A database whose counts are the lengths of its tables. *)
Definition counts_match (peersDb : PeersDB) : Prop :=
  NNew peersDb = len (NewAddrInfo peersDb)
  /\ NTried peersDb = len (TriedAddrInfo peersDb).

Definition records (peersDb : PeersDB) : list CAddrInfo :=
  NewAddrInfo peersDb ++ TriedAddrInfo peersDb.

(** What [main] prints for the error of the decoder. *)
Definition printed (err : option string) : list event :=
  match err with
  | Some e => [Println e]
  | None => []
  end.

Definition sample_db : PeersDB :=
  {| NNew := 2; NTried := 1; NewAddrInfo := sample_table;
     TriedAddrInfo := [peer "5.6.7.8" 8333 99] |}.

(** ** Vocabulary of the further properties *)

(** The counter of a bucket. *)
Definition counter (k : bucket) (b : AgeBuckets) : Z :=
  match k with
  | B_1 => LessThanOne b
  | B_1_5 => OneToFive b
  | B_5_10 => FiveToTen b
  | B_10_30 => TenToThirty b
  | B_30 => GreaterThanThirty b
  end.

#[global] Instance bucket_eq_dec : EqDecision bucket.
Proof. solve_decision. Defined.

#[global] Instance panic_eq_dec : EqDecision panic.
Proof. solve_decision. Defined.

#[global] Instance outcome_eq_dec {A} `{EqDecision A} : EqDecision (outcome A).
Proof. solve_decision. Defined.

(** The number of records of a table whose age, the reference less the
    timestamp, is in bucket [k]. *)
Definition records_of_age (approxAge : Z) (k : bucket) (table : list CAddrInfo) : Z :=
  len (filter (fun a => bucket_of_age (approxAge - Time (Address a)) = k) table).

(** What the clipping of the address string of each record of a table
    gives. *)
Definition clipped (table : list CAddrInfo) : list (outcome string) :=
  map (fun a => clip_port (address_string a)) table.

(** The tokens of the scan of a corpus that are the clipped address of a
    record. *)
Definition matching_lines (table : list CAddrInfo) (lines : list string)
  : list string :=
  filter (fun ip => Ok ip ∈ clipped table) lines.

(** The first [n] records of a table. *)
Definition counted (n : Z) (table : list CAddrInfo) : list CAddrInfo :=
  take (Z.to_nat n) table.

(** The lines of a text, each ended by a line feed; [cur] is the line read
    so far. *)
Fixpoint lines_from (cur : string) (text : string) : list string :=
  match text with
  | EmptyString => []
  | String c rest =>
      if Ascii.eqb c "010"%char then cur :: lines_from EmptyString rest
      else lines_from (cur ++ String c EmptyString) rest
  end.

(** A string without a line feed. *)
Fixpoint one_line (s : string) : Prop :=
  match s with
  | EmptyString => True
  | String c rest => c <> "010"%char /\ one_line rest
  end.

(** [P] holds of the [n] integers from [k] on. *)
Fixpoint all_from (n : nat) (k : Z) (P : Z -> bool) : bool :=
  match n with
  | O => true
  | S n' => P k && all_from n' (k + 1) P
  end.

Definition sample_world : World :=
  {| NewPeersDB := (sample_db, None); tsFile := [50; 150];
     bitnodeFile := fun _ => ["1.2.3.4"; "5.6.7.8"]%string |}.

(** * Properties *)

(** ** Sample runs *)

Example locator_tie : ClosestBitnodeTS [100; 200; 300] 250 = Ok 300.
Proof. reflexivity. Qed.

Example locator_single : ClosestBitnodeTS [100] 50 = Panicked (IndexOutOfRange 1 1).
Proof. reflexivity. Qed.

Example failed_run_trace :
  map is_stage (main Int64 failed_world).1 = [false; true; true; true; true].
Proof. vm_compute. reflexivity. Qed.

(** ** Oldest record *)

Lemma OldestIP_fold (table : list CAddrInfo) (start : Z) :
  fold_left
    (fun oldestIP a =>
       if oldestIP >? Time (Address a) then Time (Address a) else oldestIP)
    table start
  = Z.min start (min_with_sentinel start (timestamps table)).
Proof.
  revert start.
  induction table as [|a rest IH]; intros start; simpl.
  - lia.
  - rewrite IH. unfold min_with_sentinel. simpl.
    set (m := foldr Z.min _ _).
    assert (Hm : forall s s', s' <= s ->
               Z.min s' (foldr Z.min s' (timestamps rest))
               = Z.min s' (foldr Z.min s (timestamps rest))).
    { clear. induction (timestamps rest) as [|t l IHl]; simpl; intros; [lia|].
      specialize (IHl s s' H). lia. }
    destruct (Z.gtb_spec start (Time (Address a))) as [Hgt|Hle].
    + subst m. rewrite (Hm start (Time (Address a))) by lia. lia.
    + subst m. lia.
Qed.

Lemma min_with_sentinel_le (sentinel : Z) (l : list Z) :
  min_with_sentinel sentinel l <= sentinel.
Proof. induction l; simpl; lia. Qed.

Lemma min_with_sentinel_lower (sentinel : Z) (l : list Z) (x : Z) :
  x ∈ l -> min_with_sentinel sentinel l <= x.
Proof.
  induction 1 as [x l|x y l _ IH]; simpl; [|lia].
  pose proof (min_with_sentinel_le sentinel l). lia.
Qed.

Lemma OldestIP_min (table : list CAddrInfo) :
  OldestIP table = min_with_sentinel 2000000000 (timestamps table).
Proof.
  unfold OldestIP. rewrite OldestIP_fold.
  pose proof (min_with_sentinel_le 2000000000 (timestamps table)). lia.
Qed.

(** No record is older than what [OldestIP] returns. *)
Lemma OldestIP_lower (table : list CAddrInfo) (a : CAddrInfo) :
  a ∈ table -> OldestIP table <= Time (Address a).
Proof.
  intros Ha. rewrite OldestIP_min.
  apply min_with_sentinel_lower. unfold timestamps.
  apply list_elem_of_fmap. exists a. done.
Qed.

(** C10: [OldestIP] returns the minimum of 2000000000 and of the records'
    last-seen timestamps.  On an empty table that is the sentinel 2000000000,
    which the output stage turns into a number of days that means nothing
    (4629 days in the future for a database saved at 1600000000), and a
    record with a timestamp above the sentinel does not raise the result
    above it. *)
Theorem OldestIP_min_sentinel (table : list CAddrInfo) :
  OldestIP table = min_with_sentinel 2000000000 (timestamps table)
  /\ OldestIP [] = 2000000000
  /\ OldestIP table <= 2000000000
  /\ daysOldestIP Int64 1600000000 (OldestIP []) = -4629.
Proof.
  repeat split.
  - apply OldestIP_min.
  - rewrite OldestIP_min. apply min_with_sentinel_le.
Qed.

(** ** Age bucketer *)

Lemma AddToAgeBucket_bump (sz : int_size) (b : AgeBuckets) (ipTimestamp approxAge : Z) :
  AddToAgeBucket sz b ipTimestamp approxAge
  = bump (bucket_of_age (int_of_uint32 sz (uint32_sub approxAge ipTimestamp))) b.
Proof.
  unfold AddToAgeBucket, bucket_of_age. destruct b. simpl.
  repeat (case_match; try reflexivity).
Qed.

Lemma bump_inj (k k' : bucket) (b : AgeBuckets) : bump k b = bump k' b -> k = k'.
Proof.
  destruct b, k, k'; simpl; intros H; try reflexivity; injection H; lia.
Qed.

Lemma bucket_sum_bump (k : bucket) (b : AgeBuckets) :
  bucket_sum (bump k b) = bucket_sum b + 1.
Proof. destruct k; unfold bucket_sum; simpl; lia. Qed.

Example bucket_boundaries :
  map bucket_of_age [86400; 86401; 5 * 86400; 10 * 86400; 30 * 86400]
  = [B_1; B_1_5; B_5_10; B_10_30; B_30].
Proof. reflexivity. Qed.


(** ... and the difference plus 2^32 when the record is newer. *)
Lemma ipAge_newer (ipTimestamp approxAge : Z) :
  is_uint32 ipTimestamp -> is_uint32 approxAge -> approxAge < ipTimestamp ->
  int_of_uint32 Int64 (uint32_sub approxAge ipTimestamp)
  = approxAge - ipTimestamp + 2 ^ 32.
Proof.
  unfold is_uint32, uint32_max, int_of_uint32, uint32_sub, uint32, uint32_max.
  intros H1 H2 H3. simpl int_bits.
  replace ((approxAge - ipTimestamp) mod 2 ^ 32)
    with (approxAge - ipTimestamp + 2 ^ 32).
  2:{ symmetry. rewrite <- (Z.mod_small (approxAge - ipTimestamp + 2 ^ 32) (2 ^ 32)) by lia.
      rewrite <- (Z_mod_plus_full (approxAge - ipTimestamp) 1 (2 ^ 32)).
      f_equal; lia. }
  rewrite Z.mod_small by lia.
  case_match; [reflexivity|]. apply Z.ltb_ge in H. change (2 ^ 64 / 2) with (2 ^ 63) in H. lia.
Qed.

(** For either width of [int], the age is the difference of the timestamps
    when the record is not newer than the reference and less than 2^31
    seconds older. *)
Lemma ipAge_difference (sz : int_size) (ipTimestamp approxAge : Z) :
  is_uint32 ipTimestamp -> is_uint32 approxAge ->
  ipTimestamp <= approxAge -> approxAge - ipTimestamp < 2 ^ 31 ->
  int_of_uint32 sz (uint32_sub approxAge ipTimestamp) = approxAge - ipTimestamp.
Proof.
  unfold is_uint32, uint32_max, int_of_uint32, uint32_sub, uint32, uint32_max.
  intros H1 H2 H3 H4.
  rewrite (Z.mod_small (approxAge - ipTimestamp)) by lia.
  destruct sz; simpl int_bits.
  - rewrite Z.mod_small by lia.
    change (2 ^ 32 / 2) with (2 ^ 31).
    destruct (Z.ltb_spec (approxAge - ipTimestamp) (2 ^ 31)); [reflexivity|lia].
  - rewrite Z.mod_small by lia.
    change (2 ^ 64 / 2) with (2 ^ 63).
    destruct (Z.ltb_spec (approxAge - ipTimestamp) (2 ^ 63)); [reflexivity|lia].
Qed.

(** X7: where [int] has 64 bits, a record newer than the reference by at
    most 2^32 - 30 days is counted as older than thirty days. *)
Lemma newer_record_counted_oldest (b : AgeBuckets) (ipTimestamp approxAge : Z) :
  is_uint32 ipTimestamp -> is_uint32 approxAge ->
  approxAge < ipTimestamp <= approxAge + (2 ^ 32 - THIRTY_DAYS) ->
  AddToAgeBucket Int64 b ipTimestamp approxAge = bump B_30 b.
Proof.
  intros H1 H2 H3. rewrite AddToAgeBucket_bump, ipAge_newer by (tauto || lia).
  unfold bucket_of_age.
  change ONE_DAY with 86400. change FIVE_DAYS with 432000.
  change TEN_DAYS with 864000. change THIRTY_DAYS with 2592000 in *.
  repeat (case_match; try lia). reflexivity.
Qed.

(** Called with a record newer than the reference, [AddToAgeBucket]
    computes the wrapped difference of two [uint32], converted to [int]
    after the subtraction: a record newer by 100 seconds has, on a 64-bit
    [int], the age 4294967196 and is counted as older than thirty days, by
    [AddToAgeBucket] and so by [ComputeStats]; a record newer by 3000000000
    seconds is counted so whatever the width of [int]. *)
Example AddToAgeBucket_newer_record :
  int_of_uint32 Int64 (uint32_sub 100 200) = 4294967196
  /\ AddToAgeBucket Int64 (Age CreateResult) 200 100 = bump B_30 (Age CreateResult)
  /\ map_outcome (fun r => Age r.1)
       (ComputeStats Int64 [] 100 [peer "1.2.3.4" 8333 200] [])
     = Ok (bump B_30 (Age CreateResult))
  /\ forall sz, AddToAgeBucket sz (Age CreateResult) 3000000000 0
                = bump B_30 (Age CreateResult).
Proof.
  split; [reflexivity|]. split; [reflexivity|]. split; [vm_compute; reflexivity|].
  intros []; reflexivity.
Qed.

(** ** The loops of [ComputeStats] *)

Lemma clip_port_clippable (ip : string) :
  (5 <= String.length ip)%nat ->
  clip_port ip = Ok (String.substring 0 (String.length ip - 5) ip).
Proof.
  intros H. unfold clip_port, slice_to.
  destruct (Z.ltb_spec (Z.of_nat (String.length ip) - 5) 0); [lia|].
  destruct (Z.ltb_spec (Z.of_nat (String.length ip))
              (Z.of_nat (String.length ip) - 5)); [lia|].
  simpl. do 2 f_equal. lia.
Qed.

Lemma table_loop_returns (sz : int_size) (approxAge : Z) (table : list CAddrInfo) :
  Forall clippable table ->
  forall seen age, exists r, table_loop sz approxAge table seen age = Ok r.
Proof.
  induction 1 as [|a rest Ha _ IH]; intros seen age; simpl.
  - eauto.
  - rewrite clip_port_clippable by exact Ha. simpl. apply IH.
Qed.

Lemma table_loop_buckets (sz : int_size) (approxAge : Z) (table : list CAddrInfo) :
  forall seen age seen' age',
    table_loop sz approxAge table seen age = Ok (seen', age') ->
    bucket_sum age' = bucket_sum age + len table.
Proof.
  unfold len.
  induction table as [|a rest IH]; intros seen age seen' age'; simpl.
  - intros [= _ <-]. lia.
  - destruct (clip_port _) as [bare| |]; simpl; try discriminate.
    intros H. apply IH in H. rewrite H, AddToAgeBucket_bump, bucket_sum_bump. lia.
Qed.

Lemma table_loop_size (sz : int_size) (approxAge : Z) (table : list CAddrInfo) :
  forall (seen : gmap string bool) age seen' age',
    table_loop sz approxAge table seen age = Ok (seen', age') ->
    (size seen' <= size seen + length table)%nat.
Proof.
  induction table as [|a rest IH]; intros seen age seen' age'; simpl.
  - intros [= <- _]. lia.
  - destruct (clip_port _) as [bare| |]; simpl; try discriminate.
    intros H. apply IH in H.
    assert (size (<[bare:=true]> seen) <= S (size seen))%nat; [|lia].
    destruct (seen !! bare) eqn:E.
    + rewrite map_size_insert_Some by eauto. lia.
    + rewrite map_size_insert_None by done. lia.
Qed.

Lemma scan_loop_filter (lines : list string) (newSeen triedSeen : gmap string bool) :
  forall newReachableIPs triedReachableIPs totalIPCount,
    scan_loop lines newSeen triedSeen newReachableIPs triedReachableIPs totalIPCount
    = (newReachableIPs ++ found_in newSeen lines,
       triedReachableIPs ++ found_in triedSeen lines,
       totalIPCount + len lines).
Proof.
  unfold found_in, len.
  induction lines as [|ip rest IH]; intros nr tr c; simpl.
  - rewrite !app_nil_r. f_equal. lia.
  - rewrite IH, !filter_cons.
    destruct (newSeen !! ip) eqn:En, (triedSeen !! ip) eqn:Et;
      repeat case_decide;
      repeat match goal with
             | H : is_Some None |- _ => destruct H; discriminate
             | H : ¬ is_Some (Some _) |- _ => exfalso; apply H; eauto
             end;
      rewrite <- ?app_assoc; simpl; f_equal; lia.
Qed.

(** What [ComputeStats] returns, from what its loops return. *)
Lemma ComputeStats_returns (sz : int_size) (bitnodeLines : list string)
  (approxAge : Z) (newTableIPs triedTableIPs : list CAddrInfo)
  (newResults triedResults : Result) :
  ComputeStats sz bitnodeLines approxAge newTableIPs triedTableIPs
  = Ok (newResults, triedResults) ->
  exists newSeen newAge triedSeen triedAge,
    table_loop sz approxAge newTableIPs ∅ (Age CreateResult) = Ok (newSeen, newAge)
    /\ table_loop sz approxAge triedTableIPs ∅ (Age CreateResult)
       = Ok (triedSeen, triedAge)
    /\ newResults =
       {| NumberOfReachableIPs := len (found_in newSeen bitnodeLines);
          TotalIPs := len newTableIPs;
          Percentage := float64 (len (found_in newSeen bitnodeLines))
                        / float64 (len newTableIPs);
          OldestIPAge := OldestIP newTableIPs;
          Age := newAge |}
    /\ triedResults =
       {| NumberOfReachableIPs := len (found_in triedSeen bitnodeLines);
          TotalIPs := len triedTableIPs;
          Percentage := float64 (len (found_in triedSeen bitnodeLines))
                        / float64 (len triedTableIPs);
          OldestIPAge := OldestIP triedTableIPs;
          Age := triedAge |}.
Proof.
  unfold ComputeStats.
  destruct (table_loop sz approxAge newTableIPs _ _) as [[newSeen newAge]| |];
    simpl; try discriminate.
  destruct (table_loop sz approxAge triedTableIPs _ _) as [[triedSeen triedAge]| |];
    simpl; try discriminate.
  rewrite scan_loop_filter. simpl.
  intros [= <- <-]. exists newSeen, newAge, triedSeen, triedAge. done.
Qed.

Lemma ComputeStats_total (sz : int_size) (bitnodeLines : list string)
  (approxAge : Z) (newTableIPs triedTableIPs : list CAddrInfo) :
  Forall clippable newTableIPs -> Forall clippable triedTableIPs ->
  exists newResults triedResults,
    ComputeStats sz bitnodeLines approxAge newTableIPs triedTableIPs
    = Ok (newResults, triedResults).
Proof.
  intros Hn Ht. unfold ComputeStats.
  destruct (table_loop_returns sz approxAge _ Hn ∅ (Age CreateResult))
    as [[newSeen newAge] ->].
  destruct (table_loop_returns sz approxAge _ Ht ∅ (Age CreateResult))
    as [[triedSeen triedAge] ->].
  simpl. rewrite scan_loop_filter. simpl. eauto.
Qed.

(** C7: every record increments exactly one of the five counters, whatever
    its age, so that the counters of a table that [ComputeStats] has
    processed add up to the number of its records; and [ComputeStats] does
    process the tables whose address strings have the five characters it
    clips. *)
Theorem age_buckets_sum (sz : int_size) (bitnodeLines : list string)
  (approxAge : Z) (newTableIPs triedTableIPs : list CAddrInfo) :
  (forall b ipTimestamp,
      exists k, AddToAgeBucket sz b ipTimestamp approxAge = bump k b
                /\ forall k', AddToAgeBucket sz b ipTimestamp approxAge = bump k' b
                              -> k' = k)
  /\ (forall newResults triedResults,
         ComputeStats sz bitnodeLines approxAge newTableIPs triedTableIPs
         = Ok (newResults, triedResults) ->
         bucket_sum (Age newResults) = len newTableIPs
         /\ bucket_sum (Age triedResults) = len triedTableIPs)
  /\ (Forall clippable newTableIPs -> Forall clippable triedTableIPs ->
      exists newResults triedResults,
        ComputeStats sz bitnodeLines approxAge newTableIPs triedTableIPs
        = Ok (newResults, triedResults)).
Proof.
  split; [|split].
  - intros b ts. eexists. split; [apply AddToAgeBucket_bump|].
    intros k' H. rewrite AddToAgeBucket_bump in H.
    symmetry. exact (bump_inj _ _ _ H).
  - intros n t H.
    apply ComputeStats_returns in H as (nS & nA & tS & tA & Hn & Ht & -> & ->).
    apply table_loop_buckets in Hn, Ht. simpl. split; assumption.
  - apply ComputeStats_total.
Qed.

Lemma sample_table_clippable : Forall clippable sample_table.
Proof. repeat constructor; unfold clippable; vm_compute; lia. Defined.

Lemma age_buckets_sum_witness :
  exists newResults triedResults,
    ComputeStats Int64 ["1.2.3.4"; "5.6.7.8"]%string 100 sample_table []
    = Ok (newResults, triedResults)
    /\ bucket_sum (Age newResults) = 2
    /\ bucket_sum (Age triedResults) = 0.
Proof.
  destruct (age_buckets_sum Int64 ["1.2.3.4"; "5.6.7.8"]%string 100 sample_table [])
    as (_ & Hsum & Hret).
  destruct (Hret sample_table_clippable ltac:(constructor)) as (n & t & H).
  exists n, t. split; [exact H|]. exact (Hsum n t H).
Defined.

(** ** Reachability matcher *)

Lemma found_in_empty (lines : list string) : found_in ∅ lines = [].
Proof.
  unfold found_in. induction lines as [|ip rest IH]; [reflexivity|].
  rewrite filter_cons, IH. case_decide as H; [|reflexivity].
  rewrite lookup_empty in H. destruct H; discriminate.
Qed.

Lemma found_in_length (seen : gmap string bool) (lines : list string) :
  NoDup lines -> (length (found_in seen lines) <= size seen)%nat.
Proof.
  intros Hnd. rewrite <- size_dom. unfold size, set_size. simpl.
  apply submseteq_length, NoDup_submseteq.
  - apply NoDup_filter, Hnd.
  - intros ip [Hip _]%list_elem_of_filter.
    apply elem_of_elements, elem_of_dom, Hip.
Qed.

(** ** Quotients of [float64] *)

Lemma digits2_pos_bounds (m : positive) :
  2 ^ (Zpos (digits2_pos m) - 1) <= Zpos m < 2 ^ Zpos (digits2_pos m).
Proof.
  induction m as [m IH|m IH|]; simpl digits2_pos.
  - rewrite Pos2Z.inj_succ.
    replace (Z.succ (Zpos (digits2_pos m)) - 1) with (Z.succ (Zpos (digits2_pos m) - 1)) by lia.
    rewrite !Z.pow_succ_r by lia. lia.
  - rewrite Pos2Z.inj_succ.
    replace (Z.succ (Zpos (digits2_pos m)) - 1) with (Z.succ (Zpos (digits2_pos m) - 1)) by lia.
    rewrite !Z.pow_succ_r by lia. lia.
  - simpl. lia.
Qed.

Lemma digits2_pos_unique (m : positive) (d : Z) :
  2 ^ (d - 1) <= Zpos m < 2 ^ d -> Zpos (digits2_pos m) = d.
Proof.
  intros [Hl Hu]. pose proof (digits2_pos_bounds m) as [Bl Bu].
  assert (0 < d).
  { destruct (Z.lt_ge_cases 0 d) as [|Hd]; [assumption|].
    assert (2 ^ d <= 1); [|lia].
    destruct (Z.eq_dec d 0) as [->|]; [simpl; lia|].
    rewrite Z.pow_neg_r by lia. lia. }
  assert (Zpos (digits2_pos m) - 1 < d).
  { apply (Z.pow_lt_mono_r_iff 2); lia. }
  assert (d - 1 < Zpos (digits2_pos m)).
  { apply (Z.pow_lt_mono_r_iff 2); lia. }
  lia.
Qed.

Lemma loc_of_shr_record_of_loc (m : Z) (l : location) :
  loc_of_shr_record (shr_record_of_loc m l) = l.
Proof. destruct l as [|[]]; reflexivity. Qed.

Lemma shr_m_of_loc (m : Z) (l : location) : shr_m (shr_record_of_loc m l) = m.
Proof. destruct l as [|[]]; reflexivity. Qed.

Lemma round_nearest_even_bounds (m : Z) (l : location) :
  m <= round_nearest_even m l <= m + 1.
Proof.
  unfold round_nearest_even. destruct l as [|[]]; try lia.
  destruct (Z.even m); lia.
Qed.

(** The shift of a mantissa of 53 + [k] digits. *)
Lemma shr_fexp_digits (m e : Z) (l : location) (k : Z) :
  0 <= k -> 2 ^ (52 + k) <= m < 2 ^ (53 + k) -> emin <= e ->
  shr_fexp prec emax m e l = shr (shr_record_of_loc m l) e k.
Proof.
  intros Hk Hm He. unfold shr_fexp. f_equal.
  assert (0 < m) by (assert (0 < 2 ^ (52 + k)) by (apply Z.pow_pos_nonneg; lia); lia).
  destruct m as [|p|p]; try lia.
  simpl Zdigits2. rewrite (digits2_pos_unique p (53 + k)) by (replace (53 + k - 1) with (52 + k) by lia; exact Hm).
  unfold fexp, SpecFloat.emin, prec, emax in *. lia.
Qed.

Lemma binary_round_aux_finish (sx : bool) (q e : Z) (l : location) :
  binary_round_aux prec emax sx q e l
  = let '(mrs', e') := shr_fexp prec emax q e l in
    finish sx (round_nearest_even (shr_m mrs') (loc_of_shr_record mrs')) e'.
Proof. reflexivity. Qed.

Lemma finish_normal (sx : bool) (mr : positive) (e1 : Z) :
  2 ^ 52 <= Zpos mr < 2 ^ 53 -> emin <= e1 <= 971 ->
  finish sx (Zpos mr) e1 = S754_finite sx mr e1.
Proof.
  intros Hm He. unfold finish.
  rewrite (shr_fexp_digits (Zpos mr) e1 loc_Exact 0) by (simpl; lia).
  simpl shr. cbn [shr_m shr_record_of_loc].
  destruct (Z.leb_spec e1 (emax - prec)) as [_|H]; [reflexivity|].
  unfold emax, prec in H. lia.
Qed.

Lemma finish_carry (sx : bool) (e1 : Z) :
  emin <= e1 <= 970 ->
  finish sx (2 ^ 53) e1 = S754_finite sx (Z.to_pos (2 ^ 52)) (e1 + 1).
Proof.
  intros He. unfold finish.
  rewrite (shr_fexp_digits (2 ^ 53) e1 loc_Exact 1) by (simpl; lia).
  change (shr (shr_record_of_loc (2 ^ 53) loc_Exact) e1 1)
    with ({| shr_m := Zpos (Z.to_pos (2 ^ 52)); shr_r := false; shr_s := false |},
          e1 + 1).
  cbn [shr_m]. change (emax - prec) with 971.
  destruct (Z.leb_spec (e1 + 1) 971) as [_|H]; [reflexivity|lia].
Qed.

Lemma finish_shape (sx : bool) (mr e1 : Z) :
  2 ^ 52 <= mr <= 2 ^ 53 -> emin <= e1 <= 970 ->
  exists m'',
    (finish sx mr e1 = S754_finite sx m'' e1 /\ Zpos m'' = mr /\ mr < 2 ^ 53)
    \/ (finish sx mr e1 = S754_finite sx m'' (e1 + 1) /\ Zpos m'' = 2 ^ 52
        /\ mr = 2 ^ 53).
Proof.
  intros Hm He. destruct (Z.eq_dec mr (2 ^ 53)) as [->|Hne].
  - exists (Z.to_pos (2 ^ 52)). right. rewrite finish_carry by exact He.
    repeat split.
  - destruct mr as [|p|p]; try lia.
    exists p. left. rewrite finish_normal by lia. repeat split. lia.
Qed.

(** The first shift, with no digit to drop, ... *)
Lemma first_shift_0 (q e : Z) (l : location) :
  2 ^ 52 <= q < 2 ^ 53 -> emin <= e ->
  shr_fexp prec emax q e l = (shr_record_of_loc q l, e).
Proof.
  intros Hq He. rewrite (shr_fexp_digits q e l 0) by (simpl; lia). reflexivity.
Qed.

(** ... and with one digit to drop. *)
Lemma first_shift_1 (q e : Z) (l : location) :
  2 ^ 53 <= q < 2 ^ 54 -> emin <= e ->
  exists mrs,
    shr_fexp prec emax q e l = (mrs, e + 1)
    /\ shr_m mrs = q / 2
    /\ (l = loc_Exact -> Z.even q = true -> loc_of_shr_record mrs = loc_Exact).
Proof.
  intros Hq He. rewrite (shr_fexp_digits q e l 1) by (simpl; lia).
  change (shr (shr_record_of_loc q l) e 1) with (shr_1 (shr_record_of_loc q l), e + 1).
  eexists. split; [reflexivity|].
  destruct q as [|p|p]; try lia.
  destruct p as [p|p|].
  - split.
    + destruct l as [|[]]; cbn; rewrite Pos2Z.inj_xI;
        apply (Z.div_unique _ _ _ 1); lia.
    + intros _ Hev. discriminate Hev.
  - split.
    + destruct l as [|[]]; cbn; rewrite Pos2Z.inj_xO;
        apply (Z.div_unique _ _ _ 0); lia.
    + intros -> _. reflexivity.
  - simpl in Hq. lia.
Qed.

Lemma binary_round_aux_shape (q e : Z) (l : location) (k : Z) :
  k = 0 \/ k = 1 ->
  2 ^ (52 + k) <= q < 2 ^ (53 + k) -> emin <= e <= 900 ->
  exists m'',
    (binary_round_aux prec emax false q e l = S754_finite false m'' (e + k)
     /\ 2 ^ 52 <= Zpos m'' < 2 ^ 53)
    \/ (binary_round_aux prec emax false q e l = S754_finite false m'' (e + k + 1)
        /\ Zpos m'' = 2 ^ 52).
Proof.
  intros Hk Hq He. rewrite binary_round_aux_finish.
  destruct Hk as [-> | ->].
  - rewrite first_shift_0 by (simpl in Hq; lia).
    rewrite shr_m_of_loc, loc_of_shr_record_of_loc.
    pose proof (round_nearest_even_bounds q l) as Hr.
    destruct (finish_shape false (round_nearest_even q l) e) as [m'' [(H1 & H2 & H3)|(H1 & H2 & H3)]];
      try (simpl in Hq; lia).
    + exists m''. left. rewrite Z.add_0_r. split; [exact H1|]. simpl in Hq. lia.
    + exists m''. right. rewrite Z.add_0_r. split; [exact H1|exact H2].
  - destruct (first_shift_1 q e l) as (mrs & -> & Hm & _); try (simpl in Hq; lia).
    pose proof (round_nearest_even_bounds (shr_m mrs) (loc_of_shr_record mrs)) as Hr.
    rewrite Hm in Hr.
    assert (Hq2 : 2 ^ 52 <= q / 2 < 2 ^ 53).
    { simpl in Hq. split.
      - apply Z.div_le_lower_bound; lia.
      - apply Z.div_lt_upper_bound; lia. }
    rewrite Hm.
    destruct (finish_shape false (round_nearest_even (q / 2) (loc_of_shr_record mrs)) (e + 1))
      as [m'' [(H1 & H2 & H3)|(H1 & H2 & H3)]]; try lia.
    + exists m''. left. split; [exact H1|]. lia.
    + exists m''. right. replace (e + 1 + 1) with (e + 1 + 1) by lia.
      split; [exact H1|exact H2].
Qed.

Lemma SFleb_one (m : positive) (e : Z) :
  e < -52 \/ (e = -52 /\ Zpos m = 2 ^ 52) ->
  SFleb (S754_finite false m e) SF_one = true.
Proof.
  intros H. unfold SFleb, SFcompare, SF_one.
  destruct H as [H|[-> H]].
  - rewrite (proj2 (Z.compare_lt_iff e (-52)) H). reflexivity.
  - change (2 ^ 52) with (Zpos 4503599627370496) in H. injection H as ->.
    reflexivity.
Qed.

Lemma SFdiv_core_normal (mx my : positive) (ex ey : Z) :
  2 ^ 52 <= Zpos mx < 2 ^ 53 -> 2 ^ 52 <= Zpos my < 2 ^ 53 ->
  -100 <= ex <= 100 -> -100 <= ey <= 100 ->
  SFdiv_core_binary prec emax (Zpos mx) ex (Zpos my) ey
  = (fst (Z.div_eucl (Zpos mx * 2 ^ 53) (Zpos my)), ex - ey - 53,
     new_location (Zpos my) (snd (Z.div_eucl (Zpos mx * 2 ^ 53) (Zpos my)))).
Proof.
  intros Hx Hy Hex Hey. unfold SFdiv_core_binary.
  simpl Zdigits2.
  rewrite (digits2_pos_unique mx 53), (digits2_pos_unique my 53) by (simpl; lia).
  assert (He : Z.min (fexp prec emax (53 + ex - (53 + ey))) (ex - ey) = ex - ey - 53).
  { unfold fexp, SpecFloat.emin, prec, emax. lia. }
  rewrite He.
  replace (ex - ey - (ex - ey - 53)) with 53 by lia.
  rewrite Z.shiftl_mul_pow2 by lia.
  destruct (Z.div_eucl (Zpos mx * 2 ^ 53) (Zpos my)) as [q r]. reflexivity.
Qed.

Lemma SFdiv_unit (mx my : positive) (ex ey : Z) :
  2 ^ 52 <= Zpos mx < 2 ^ 53 -> 2 ^ 52 <= Zpos my < 2 ^ 53 ->
  -100 <= ex <= 100 -> -100 <= ey <= 100 ->
  ex < ey \/ (ex = ey /\ Zpos mx <= Zpos my) ->
  SFleb (SF64div (S754_finite false mx ex) (S754_finite false my ey)) SF_one = true
  /\ SFleb (S754_zero false)
       (SF64div (S754_finite false mx ex) (S754_finite false my ey)) = true.
Proof.
  intros Hx Hy Hex Hey Hle. unfold SF64div, SFdiv.
  rewrite (SFdiv_core_normal mx my ex ey Hx Hy Hex Hey).
  cbn [xorb].
  pose proof (Z_div_mod (Zpos mx * 2 ^ 53) (Zpos my) ltac:(lia)) as Hdiv.
  destruct (Z.div_eucl (Zpos mx * 2 ^ 53) (Zpos my)) as [q r].
  cbn [fst snd]. destruct Hdiv as [Hq Hr].
  assert (Hp : 2 ^ 53 = 9007199254740992) by reflexivity.
  assert (Hp2 : 2 ^ 52 = 4503599627370496) by reflexivity.
  assert (Hp4 : 2 ^ 54 = 18014398509481984) by reflexivity.
  rewrite Hp in *. rewrite Hp2 in *.
  assert (Hqb : 4503599627370496 <= q < 18014398509481984) by nia.
  destruct (Z.lt_ge_cases (Zpos mx) (Zpos my)) as [Hlt|Hge].
  - (* the quotient has 53 digits *)
    assert (Hq53 : q < 9007199254740992) by nia.
    destruct (binary_round_aux_shape q (ex - ey - 53) (new_location (Zpos my) r) 0)
      as [m'' [[-> Hm]|[-> Hm]]];
      try (left; reflexivity); try (rewrite ?Hp, ?Hp2; simpl; unfold SpecFloat.emin, prec, emax; lia).
    + split; [|reflexivity]. apply SFleb_one. lia.
    + split; [|reflexivity]. apply SFleb_one. rewrite Hp2. lia.
  - destruct Hle as [Hlt|[-> Hle]].
    + (* the quotient has 54 digits, and the exponents differ *)
      assert (Hq54 : 9007199254740992 <= q) by nia.
      destruct (binary_round_aux_shape q (ex - ey - 53) (new_location (Zpos my) r) 1)
        as [m'' [[-> Hm]|[-> Hm]]];
        try (right; reflexivity); try (rewrite ?Hp, ?Hp4; simpl; unfold SpecFloat.emin, prec, emax; lia).
      * split; [|reflexivity]. apply SFleb_one. lia.
      * split; [|reflexivity]. apply SFleb_one. rewrite Hp2. lia.
    + (* equal numbers *)
      assert (Heq : Zpos mx = Zpos my) by lia.
      rewrite Heq in Hq.
      assert (Hq' : q = 9007199254740992).
      { rewrite (Z.div_unique (Zpos my * 9007199254740992) (Zpos my) q r);
          [|left; lia|exact Hq].
        rewrite Z.mul_comm. apply Z.div_mul. lia. }
      subst q. assert (r = 0) by lia. subst r.
      replace (ey - ey - 53) with (-53) by lia.
      assert (Hl : new_location (Zpos my) 0 = loc_Exact).
      { unfold new_location, new_location_even, new_location_odd.
        destruct (Z.even (Zpos my)); reflexivity. }
      rewrite Hl. split; reflexivity.
Qed.

Lemma iter_pos_nat {A} (f : A -> A) (p : positive) :
  forall x, SpecFloat.iter_pos f p x = Nat.iter (Pos.to_nat p) f x.
Proof.
  induction p as [p IH|p IH|]; intros x; simpl SpecFloat.iter_pos.
  - rewrite !IH, Pos2Nat.inj_xI.
    replace (S (2 * Pos.to_nat p)) with (Pos.to_nat p + (Pos.to_nat p + 1))%nat by lia.
    rewrite !Nat.iter_add. reflexivity.
  - rewrite !IH, Pos2Nat.inj_xO.
    replace (2 * Pos.to_nat p)%nat with (Pos.to_nat p + Pos.to_nat p)%nat by lia.
    rewrite Nat.iter_add. reflexivity.
  - reflexivity.
Qed.

Lemma shr_1_spec (m : Z) (r s : bool) :
  0 <= m ->
  shr_1 {| shr_m := m; shr_r := r; shr_s := s |}
  = {| shr_m := m / 2; shr_r := Z.odd m; shr_s := orb r s |}.
Proof.
  intros Hm. destruct m as [|p|p]; [reflexivity| |lia].
  destruct p as [p|p|]; cbn [shr_1].
  - f_equal. rewrite Pos2Z.inj_xI. apply (Z.div_unique _ _ _ 1); lia.
  - f_equal. rewrite Pos2Z.inj_xO. apply (Z.div_unique _ _ _ 0); lia.
  - reflexivity.
Qed.

Lemma iter_shr_1 (n : Z) (j : nat) :
  0 <= n ->
  Nat.iter j shr_1 {| shr_m := n; shr_r := false; shr_s := false |} = shifted n j.
Proof.
  intros Hn. induction j as [|j IH].
  - unfold shifted. simpl. rewrite Z.div_1_r. reflexivity.
  - simpl Nat.iter. rewrite IH. unfold shifted.
    rewrite shr_1_spec by (apply Z.div_pos; [lia|apply Z.pow_pos_nonneg; lia]).
    assert (Hp : 0 < 2 ^ Z.of_nat j) by (apply Z.pow_pos_nonneg; lia).
    replace (Z.of_nat (S j)) with (Z.of_nat j + 1) by lia.
    replace (Z.of_nat j + 1 - 1) with (Z.of_nat j) by lia.
    rewrite Z.pow_add_r, Z.pow_1_r by lia.
    f_equal.
    + rewrite Z.div_div by lia. reflexivity.
    + (* the bit that is shifted out *)
      destruct (Z.ltb_spec 0 (Z.of_nat j + 1)) as [_|]; [|lia]. cbn [andb].
      rewrite Z.rem_mul_r by lia.
      pose proof (Z.mod_pos_bound n (2 ^ Z.of_nat j) Hp) as Hlow.
      pose proof (Zmod_odd (n / 2 ^ Z.of_nat j)) as Hodd.
      destruct (Z.odd (n / 2 ^ Z.of_nat j)); rewrite Hodd;
        destruct (Z.leb_spec (2 ^ Z.of_nat j)
                    (n mod 2 ^ Z.of_nat j + 2 ^ Z.of_nat j * 1));
        destruct (Z.leb_spec (2 ^ Z.of_nat j)
                    (n mod 2 ^ Z.of_nat j + 2 ^ Z.of_nat j * 0));
        try reflexivity; lia.
    + (* the sticky bit *)
      destruct (Z.ltb_spec 0 (Z.of_nat j + 1)) as [_|]; [|lia]. cbn [andb].
      destruct j as [|j].
      * simpl. rewrite Z.mod_1_r. reflexivity.
      * destruct (Z.ltb_spec 0 (Z.of_nat (S j))) as [_|]; [|lia]. cbn [andb].
        replace (Z.of_nat (S j)) with (Z.of_nat j + 1) in * by lia.
        replace (Z.of_nat j + 1 - 1) with (Z.of_nat j) by lia.
        assert (Hq : 0 < 2 ^ Z.of_nat j) by (apply Z.pow_pos_nonneg; lia).
        rewrite (Z.pow_add_r 2 (Z.of_nat j) 1), Z.pow_1_r by lia.
        rewrite (Z.rem_mul_r n (2 ^ Z.of_nat j) 2) by lia.
        pose proof (Z.mod_pos_bound n (2 ^ Z.of_nat j) Hq) as Hlow.
        pose proof (Z.mod_pos_bound (n / 2 ^ Z.of_nat j) 2 ltac:(lia)) as Hbit.
        assert (Hb : (n / 2 ^ Z.of_nat j) mod 2 = 0 \/ (n / 2 ^ Z.of_nat j) mod 2 = 1)
          by lia.
        destruct Hb as [-> | ->];
          match goal with
          | |- orb (?a <=? ?b) (negb (?c =? 0)) = negb (?d =? 0) =>
              destruct (Z.leb_spec a b); destruct (Z.eqb_spec c 0);
              destruct (Z.eqb_spec d 0)
          end; try reflexivity; lia.
Qed.

Lemma pos_iter_xO (p c : positive) :
  Zpos (Pos.iter xO p c) = Zpos p * 2 ^ Zpos c.
Proof.
  induction c as [|c IH] using Pos.peano_ind.
  - simpl. lia.
  - rewrite Pos.iter_succ, Pos2Z.inj_xO, IH, Pos2Z.inj_succ, Z.pow_succ_r by lia. lia.
Qed.

Lemma digits_log2 (p : positive) : Zpos (digits2_pos p) = Z.log2 (Zpos p) + 1.
Proof.
  apply digits2_pos_unique.
  pose proof (Z.log2_spec (Zpos p) ltac:(lia)) as H.
  replace (Z.log2 (Zpos p) + 1 - 1) with (Z.log2 (Zpos p)) by lia.
  replace (Z.log2 (Zpos p) + 1) with (Z.succ (Z.log2 (Zpos p))) by lia.
  exact H.
Qed.

Lemma rounded_bounds (n k : Z) :
  n / 2 ^ k <= rounded n k <= n / 2 ^ k + 1.
Proof. apply round_nearest_even_bounds. Qed.

Lemma binary_normalize_norm (n : Z) :
  1 <= n < 2 ^ 63 ->
  2 ^ 52 <= fst (norm n) < 2 ^ 53
  /\ -52 <= snd (norm n) <= 11
  /\ binary_normalize prec emax n 0 false
     = S754_finite false (Z.to_pos (fst (norm n))) (snd (norm n)).
Proof.
  intros Hn. destruct n as [|p|p]; try lia.
  pose proof (Z.log2_spec (Zpos p) ltac:(lia)) as Hlog.
  pose proof (Z.log2_nonneg (Zpos p)) as Hlog0.
  assert (Hlog63 : Z.log2 (Zpos p) < 63).
  { apply Z.log2_lt_pow2; lia. }
  unfold norm. cbn [binary_normalize]. unfold binary_round.
  rewrite digits_log2. set (d := Z.log2 (Zpos p) + 1).
  replace (Z.succ (Z.log2 (Zpos p))) with d in Hlog by (unfold d; lia).
  assert (Hfexp : fexp prec emax (d + 0) = d - 53).
  { unfold fexp, SpecFloat.emin, prec, emax. lia. }
  rewrite Hfexp.
  destruct (Z.leb_spec d 53) as [Hd|Hd]; cbn [fst snd].
  - (* the integer has at most 53 digits: it is shifted left *)
    assert (Hm : 2 ^ 52 <= Zpos p * 2 ^ (53 - d) < 2 ^ 53).
    { replace (2 ^ 52) with (2 ^ (d - 1) * 2 ^ (53 - d))
        by (rewrite <- Z.pow_add_r by lia; f_equal; lia).
      replace (2 ^ 53) with (2 ^ d * 2 ^ (53 - d))
        by (rewrite <- Z.pow_add_r by lia; f_equal; lia).
      assert (0 < 2 ^ (53 - d)) by (apply Z.pow_pos_nonneg; lia).
      replace (d - 1) with (Z.log2 (Zpos p)) by (unfold d; lia).
      nia. }
    split; [exact Hm|]. split; [lia|].
    assert (Hsh : exists mz, shl_align p 0 (d - 53) = (mz, d - 53)
                             /\ Zpos mz = Zpos p * 2 ^ (53 - d)).
    { unfold shl_align. destruct (d - 53 - 0) as [|c|c] eqn:E; try lia.
      - exists p. replace (d - 53) with 0 by lia. replace (53 - d) with 0 by lia.
        split; [reflexivity|]. simpl. lia.
      - exists (Pos.iter xO p c). split; [reflexivity|].
        rewrite pos_iter_xO. f_equal. f_equal. lia. }
    destruct Hsh as (mz & -> & Hmz).
    rewrite binary_round_aux_finish.
    rewrite first_shift_0 by (unfold SpecFloat.emin, prec, emax; lia).
    cbn [shr_record_of_loc shr_m loc_of_shr_record round_nearest_even].
    rewrite finish_normal by (unfold SpecFloat.emin, prec, emax; lia).
    rewrite <- Hmz. reflexivity.
  - (* the integer has more digits: it is shifted right and rounded *)
    set (k := d - 53).
    assert (Hk : 1 <= k <= 10) by (unfold k, d; lia).
    assert (Hq : 2 ^ 52 <= Zpos p / 2 ^ k < 2 ^ 53).
    { assert (0 < 2 ^ k) by (apply Z.pow_pos_nonneg; lia).
      assert (E1 : 2 ^ (d - 1) = 2 ^ 52 * 2 ^ k)
        by (rewrite <- Z.pow_add_r by lia; f_equal; unfold k; lia).
      assert (E2 : 2 ^ d = 2 ^ 53 * 2 ^ k)
        by (rewrite <- Z.pow_add_r by lia; f_equal; unfold k; lia).
      replace (Z.log2 (Zpos p)) with (d - 1) in Hlog by (unfold d; lia).
      split.
      - apply Z.div_le_lower_bound; lia.
      - apply Z.div_lt_upper_bound; lia. }
    pose proof (rounded_bounds (Zpos p) k) as Hr.
    assert (Hres : (if rounded (Zpos p) k <? 2 ^ 53
                    then (rounded (Zpos p) k, k) else (2 ^ 52, k + 1))
                   = (if rounded (Zpos p) k <? 2 ^ 53
                      then rounded (Zpos p) k else 2 ^ 52,
                      if rounded (Zpos p) k <? 2 ^ 53 then k else k + 1)).
    { destruct (_ <? _); reflexivity. }
    rewrite Hres. cbn [fst snd]. clear Hres.
    split; [destruct (Z.ltb_spec (rounded (Zpos p) k) (2 ^ 53)); lia|].
    split; [destruct (Z.ltb_spec (rounded (Zpos p) k) (2 ^ 53)); lia|].
    assert (Hsh : shl_align p 0 k = (p, 0)).
    { unfold shl_align. destruct (k - 0) as [|c|c] eqn:E; try lia; reflexivity. }
    rewrite Hsh, binary_round_aux_finish.
    rewrite (shr_fexp_digits (Zpos p) 0 loc_Exact k);
      [|lia| |unfold SpecFloat.emin, prec, emax; lia].
    2:{ replace (52 + k) with (d - 1) by (unfold k; lia).
        replace (53 + k) with d by (unfold k; lia).
        replace (Z.log2 (Zpos p)) with (d - 1) in Hlog by (unfold d; lia). exact Hlog. }
    destruct k as [|kp|kp] eqn:Ek; try lia.
    cbn [shr shr_record_of_loc].
    rewrite iter_pos_nat, iter_shr_1 by lia.
    unfold shifted. rewrite positive_nat_Z.
    cbn [shr_m]. fold (rounded (Zpos p) (Zpos kp)). rewrite Z.add_0_l.
    destruct (Z.ltb_spec (rounded (Zpos p) (Zpos kp)) (2 ^ 53)) as [Hlt|Hge].
    + destruct (rounded (Zpos p) (Zpos kp)) as [|mr|mr] eqn:Emr; try lia.
      rewrite finish_normal by (unfold SpecFloat.emin, prec, emax; lia).
      reflexivity.
    + assert (Er : rounded (Zpos p) (Zpos kp) = 2 ^ 53) by lia.
      rewrite Er, finish_carry by (unfold SpecFloat.emin, prec, emax; lia).
      reflexivity.
Qed.

Lemma rounded_up (n k : Z) :
  rounded n k
  = n / 2 ^ k
    + (if ((0 <? k) && (2 ^ (k - 1) <=? n mod 2 ^ k))
          && (((0 <? k) && negb (n mod 2 ^ (k - 1) =? 0)) || Z.odd (n / 2 ^ k))
       then 1 else 0).
Proof.
  unfold rounded, round_nearest_even, loc_of_shr_record.
  destruct ((0 <? k) && (2 ^ (k - 1) <=? n mod 2 ^ k));
    destruct ((0 <? k) && negb (n mod 2 ^ (k - 1) =? 0)); cbn [andb orb]; try lia.
  rewrite <- Z.negb_odd. destruct (Z.odd (n / 2 ^ k)); simpl; lia.
Qed.

Lemma rounded_mono (n1 n2 k : Z) :
  0 <= n1 <= n2 -> 1 <= k -> rounded n1 k <= rounded n2 k.
Proof.
  intros Hn Hk.
  assert (Hh : 0 < 2 ^ (k - 1)) by (apply Z.pow_pos_nonneg; lia).
  assert (Ek : 2 ^ k = 2 ^ (k - 1) * 2).
  { replace k with (k - 1 + 1) at 1 by lia. rewrite Z.pow_add_r by lia. reflexivity. }
  assert (Hq : n1 / 2 ^ k <= n2 / 2 ^ k) by (apply Z.div_le_mono; lia).
  destruct (Z.eq_dec (n1 / 2 ^ k) (n2 / 2 ^ k)) as [Heq|Hne].
  - rewrite !rounded_up, <- Heq.
    destruct (Z.ltb_spec 0 k) as [_|]; [|lia]. cbn [andb].
    pose proof (Z.div_mod n1 (2 ^ k) ltac:(lia)) as D1.
    pose proof (Z.div_mod n2 (2 ^ k) ltac:(lia)) as D2.
    rewrite <- Heq in D2.
    assert (Hlow : n1 mod 2 ^ k <= n2 mod 2 ^ k) by lia.
    rewrite Ek in Hlow |- *.
    rewrite (Z.rem_mul_r n1), (Z.rem_mul_r n2) in * by lia.
    pose proof (Z.mod_pos_bound n1 (2 ^ (k - 1)) Hh).
    pose proof (Z.mod_pos_bound n2 (2 ^ (k - 1)) Hh).
    pose proof (Z.mod_pos_bound (n1 / 2 ^ (k - 1)) 2 ltac:(lia)) as B1.
    pose proof (Z.mod_pos_bound (n2 / 2 ^ (k - 1)) 2 ltac:(lia)) as B2.
    assert (Hb1 : (n1 / 2 ^ (k - 1)) mod 2 = 0 \/ (n1 / 2 ^ (k - 1)) mod 2 = 1) by lia.
    assert (Hb2 : (n2 / 2 ^ (k - 1)) mod 2 = 0 \/ (n2 / 2 ^ (k - 1)) mod 2 = 1) by lia.
    destruct (Z.odd (n1 / (2 ^ (k - 1) * 2)));
      destruct Hb1 as [E1|E1]; destruct Hb2 as [E2|E2]; rewrite E1, E2 in *;
      repeat match goal with
             | |- context [?a <=? ?b] => destruct (Z.leb_spec a b)
             | |- context [?a =? ?b] => destruct (Z.eqb_spec a b)
             end; cbn [andb orb negb]; lia.
  - pose proof (rounded_bounds n1 k). pose proof (rounded_bounds n2 k). lia.
Qed.

Lemma norm_mono (n1 n2 : Z) :
  1 <= n1 <= n2 -> n2 < 2 ^ 63 ->
  snd (norm n1) < snd (norm n2)
  \/ (snd (norm n1) = snd (norm n2) /\ fst (norm n1) <= fst (norm n2)).
Proof.
  intros Hn H63.
  pose proof (Z.log2_le_mono n1 n2 ltac:(lia)) as Hlog.
  pose proof (Z.log2_nonneg n1) as Hl1.
  pose proof (Z.log2_spec n2 ltac:(lia)) as Hs2.
  unfold norm.
  set (d1 := Z.log2 n1 + 1). set (d2 := Z.log2 n2 + 1).
  assert (Hd : 1 <= d1 <= d2) by (unfold d1, d2; lia).
  destruct (Z.leb_spec d1 53) as [H1|H1]; destruct (Z.leb_spec d2 53) as [H2|H2];
    cbn [fst snd]; try lia.
  - destruct (Z.eq_dec d1 d2) as [E|E]; [|left; lia].
    right. split; [lia|]. rewrite E.
    apply Z.mul_le_mono_nonneg_r; [|lia]. apply Z.pow_nonneg. lia.
  - left.
    destruct (rounded n2 (d2 - 53) <? 2 ^ 53); cbn [fst snd]; lia.
  - assert (Hq2 : 2 ^ 52 <= n2 / 2 ^ (d2 - 53)).
    { assert (0 < 2 ^ (d2 - 53)) by (apply Z.pow_pos_nonneg; lia).
      apply Z.div_le_lower_bound; [lia|].
      rewrite Z.mul_comm, <- Z.pow_add_r by lia.
      replace (52 + (d2 - 53)) with (Z.log2 n2) by (unfold d2; lia). lia. }
    pose proof (rounded_bounds n2 (d2 - 53)) as Hr2.
    destruct (Z.eq_dec d1 d2) as [E|E].
    + rewrite E.
      pose proof (rounded_mono n1 n2 (d2 - 53) ltac:(lia) ltac:(lia)) as Hm.
      destruct (Z.ltb_spec (rounded n1 (d2 - 53)) (2 ^ 53));
        destruct (Z.ltb_spec (rounded n2 (d2 - 53)) (2 ^ 53)); cbn [fst snd]; lia.
    + destruct (Z.ltb_spec (rounded n1 (d1 - 53)) (2 ^ 53));
        destruct (Z.ltb_spec (rounded n2 (d2 - 53)) (2 ^ 53)); cbn [fst snd]; lia.
Qed.

Lemma to_Z_of_Z (n : Z) : 0 <= n < 2 ^ 63 -> Uint63.to_Z (Uint63.of_Z n) = n.
Proof.
  intros Hn. rewrite of_Z_spec. apply Z.mod_small. exact Hn.
Qed.

(** The [float64] quotient of two counts below 2^63, of which the first is
    not above the second, is between 0 and 1. *)
Lemma float_quotient_unit (r t : Z) :
  0 <= r <= t -> 0 < t < 2 ^ 63 ->
  (0 <=? float64 r / float64 t)%float = true
  /\ (float64 r / float64 t <=? 1)%float = true.
Proof.
  intros Hr Ht. unfold float64.
  rewrite !FloatAxioms.leb_spec, FloatAxioms.div_spec, !of_uint63_spec, !to_Z_of_Z by lia.
  change (Prim2SF 0) with (S754_zero false). change (Prim2SF 1) with SF_one.
  destruct (binary_normalize_norm t ltac:(lia)) as (Mt & Et & ->).
  destruct (Z.eq_dec r 0) as [->|Hr0].
  - split; reflexivity.
  - destruct (binary_normalize_norm r ltac:(lia)) as (Mr & Er & ->).
    pose proof (norm_mono r t ltac:(lia) ltac:(lia)) as Hm.
    destruct (SFdiv_unit (Z.to_pos (fst (norm r))) (Z.to_pos (fst (norm t)))
                (snd (norm r)) (snd (norm t))) as [H1 H0];
      rewrite ?Z2Pos.id by lia; try lia.
    split; [exact H0|exact H1].
Qed.

Lemma reachable_le_total (sz : int_size) (approxAge : Z) (table : list CAddrInfo)
  (seen : gmap string bool) (age : AgeBuckets) (lines : list string) :
  NoDup lines ->
  table_loop sz approxAge table ∅ (Age CreateResult) = Ok (seen, age) ->
  0 <= len (found_in seen lines) <= len table.
Proof.
  intros Hnd Hloop. unfold len.
  pose proof (found_in_length seen lines Hnd) as H1.
  pose proof (table_loop_size _ _ _ _ _ _ _ Hloop) as H2.
  rewrite map_size_empty in H2. lia.
Qed.

(** C8, amended: when the scan of the reachability corpus yields no token
    twice, the reachable count of each table is between 0 and the number of
    its records, and the reachable fraction, the [float64] that
    [ComputeStats] computes, is between 0 and 1 for a table that has records
    (fewer than 2^63, as a slice has); [ComputeStats] returns for the tables
    whose address strings have the five characters it clips. *)
Theorem reachable_count_bounds (sz : int_size) (bitnodeLines : list string)
  (approxAge : Z) (newTableIPs triedTableIPs : list CAddrInfo) :
  NoDup bitnodeLines ->
  len newTableIPs < 2 ^ 63 -> len triedTableIPs < 2 ^ 63 ->
  (forall newResults triedResults,
      ComputeStats sz bitnodeLines approxAge newTableIPs triedTableIPs
      = Ok (newResults, triedResults) ->
      0 <= NumberOfReachableIPs newResults <= TotalIPs newResults
      /\ 0 <= NumberOfReachableIPs triedResults <= TotalIPs triedResults
      /\ (0 < TotalIPs newResults ->
          (0 <=? Percentage newResults)%float = true
          /\ (Percentage newResults <=? 1)%float = true)
      /\ (0 < TotalIPs triedResults ->
          (0 <=? Percentage triedResults)%float = true
          /\ (Percentage triedResults <=? 1)%float = true))
  /\ (Forall clippable newTableIPs -> Forall clippable triedTableIPs ->
      exists newResults triedResults,
        ComputeStats sz bitnodeLines approxAge newTableIPs triedTableIPs
        = Ok (newResults, triedResults)).
Proof.
  intros Hnd Hln Hlt. split; [|apply ComputeStats_total].
  intros n t H.
  apply ComputeStats_returns in H as (nS & nA & tS & tA & Hn & Ht & -> & ->).
  pose proof (reachable_le_total _ _ _ _ _ _ Hnd Hn) as Bn.
  pose proof (reachable_le_total _ _ _ _ _ _ Hnd Ht) as Bt.
  cbn [NumberOfReachableIPs TotalIPs Percentage].
  split; [exact Bn|]. split; [exact Bt|].
  split; intros Hpos; apply float_quotient_unit; lia.
Qed.

Lemma reachable_count_bounds_witness :
  exists newResults triedResults,
    ComputeStats Int64 ["1.2.3.4"; "5.6.7.8"]%string 100 sample_table []
    = Ok (newResults, triedResults)
    /\ 0 <= NumberOfReachableIPs newResults <= TotalIPs newResults
    /\ (Percentage newResults <=? 1)%float = true.
Proof.
  assert (Hnd : NoDup ["1.2.3.4"; "5.6.7.8"]%string).
  { apply NoDup_cons. split; [|apply NoDup_singleton].
    intros H%list_elem_of_singleton. discriminate H. }
  destruct (reachable_count_bounds Int64 _ 100 sample_table [] Hnd) as [Hb Hret];
    [unfold len; simpl; lia..|].
  destruct (Hret sample_table_clippable ltac:(constructor)) as (n & t & H).
  exists n, t. split; [exact H|].
  destruct (Hb n t H) as (B & _ & P & _). split; [exact B|].
  apply P.
  apply ComputeStats_returns in H as (? & ? & ? & ? & _ & _ & -> & _).
  unfold len. simpl. lia.
Defined.

(** C8 as stated fails: a corpus that lists the address of the one record of
    a table three times gives the reachable count 3 and the percentage 3. *)
Lemma reachable_count_duplicates :
  ~ (forall sz bitnodeLines approxAge newTableIPs triedTableIPs
            newResults triedResults,
        ComputeStats sz bitnodeLines approxAge newTableIPs triedTableIPs
        = Ok (newResults, triedResults) ->
        0 <= NumberOfReachableIPs newResults <= TotalIPs newResults).
Proof.
  intros H.
  specialize (H Int64 ["1.2.3.4"; "1.2.3.4"; "1.2.3.4"]%string 100
                [peer "1.2.3.4" 8333 90] [] _ _ eq_refl).
  vm_compute in H. destruct H as [_ H]. apply H. reflexivity.
Qed.

(** ** Empty tables *)

Lemma empty_table_result (sz : int_size) (bitnodeLines : list string)
  (approxAge : Z) :
  let r := {| NumberOfReachableIPs := 0; TotalIPs := 0; Percentage := nan;
              OldestIPAge := 2000000000; Age := Age CreateResult |} in
  (forall triedTableIPs newResults triedResults,
      ComputeStats sz bitnodeLines approxAge [] triedTableIPs
      = Ok (newResults, triedResults) -> newResults = r)
  /\ (forall newTableIPs newResults triedResults,
        ComputeStats sz bitnodeLines approxAge newTableIPs []
        = Ok (newResults, triedResults) -> triedResults = r).
Proof.
  split; intros table n t H;
    apply ComputeStats_returns in H as (nS & nA & tS & tA & Hn & Ht & -> & ->).
  - simpl in Hn. injection Hn as <- <-. rewrite found_in_empty. reflexivity.
  - simpl in Ht. injection Ht as <- <-. rewrite found_in_empty. reflexivity.
Qed.

(** C6, amended: for a table with zero records [ComputeStats] does compute
    the percentage by the division 0 / 0, and the result it reports is what
    that division gives, the NaN of [float64]; the output stage passes it on
    (NaN times 100 is NaN). *)
Theorem empty_table_percentage (sz : int_size) (bitnodeLines : list string)
  (approxAge : Z) (table : list CAddrInfo) (newResults triedResults : Result) :
  (ComputeStats sz bitnodeLines approxAge [] table = Ok (newResults, triedResults) ->
   TotalIPs newResults = 0
   /\ Percentage newResults = (float64 0 / float64 0)%float
   /\ Percentage newResults = nan
   /\ PercentReachable (pretty sz approxAge newResults) = nan)
  /\ (ComputeStats sz bitnodeLines approxAge table [] = Ok (newResults, triedResults) ->
      TotalIPs triedResults = 0
      /\ Percentage triedResults = (float64 0 / float64 0)%float
      /\ Percentage triedResults = nan
      /\ PercentReachable (pretty sz approxAge triedResults) = nan).
Proof.
  destruct (empty_table_result sz bitnodeLines approxAge) as [Hn Ht].
  split; intros H; [apply Hn in H|apply Ht in H]; subst; repeat split.
Qed.

Lemma empty_table_percentage_witness :
  exists newResults triedResults,
    ComputeStats Int64 ["1.2.3.4"]%string 100 [] sample_table
    = Ok (newResults, triedResults)
    /\ Percentage newResults = nan.
Proof.
  destruct (ComputeStats_total Int64 ["1.2.3.4"]%string 100 [] sample_table
              ltac:(constructor) sample_table_clippable) as (n & t & H).
  exists n, t. split; [exact H|].
  exact (proj1 (proj2 (proj2
    (proj1 (empty_table_percentage Int64 _ 100 sample_table n t) H)))).
Defined.

(** C6 as stated fails: the percentage of a table with zero records is a
    NaN. *)
Lemma empty_table_percentage_is_nan :
  ~ (forall sz bitnodeLines approxAge triedTableIPs newResults triedResults,
        ComputeStats sz bitnodeLines approxAge [] triedTableIPs
        = Ok (newResults, triedResults) ->
        PrimFloat.is_nan (Percentage newResults) = false).
Proof.
  intros H.
  specialize (H Int64 ["1.2.3.4"]%string 100 [] _ _ eq_refl).
  vm_compute in H. discriminate H.
Qed.

(** ** Address normalization *)

Lemma length_append (s t : string) :
  String.length (s ++ t) = (String.length s + String.length t)%nat.
Proof. induction s as [|c s IH]; simpl; [reflexivity|]. rewrite IH. reflexivity. Qed.

Lemma substring_prefix (s t : string) :
  String.substring 0 (String.length s) (s ++ t) = s.
Proof.
  induction s as [|c s IH]; simpl.
  - destruct t; reflexivity.
  - rewrite IH. reflexivity.
Qed.

(** Clipping five characters removes a suffix of five characters, ... *)
Lemma clip_port_suffix (bare suffix : string) :
  String.length suffix = 5%nat -> clip_port (bare ++ suffix) = Ok bare.
Proof.
  intros H. rewrite clip_port_clippable by (rewrite length_append; lia).
  rewrite length_append, H.
  replace (String.length bare + 5 - 5)%nat with (String.length bare) by lia.
  rewrite substring_prefix. reflexivity.
Qed.

Lemma Itoa_four_digits (port : Z) :
  1000 <= port <= 9999 -> String.length (Itoa port) = 4%nat.
Proof.
  intros H.
  assert (Hall : forallb
                   (fun k => Nat.eqb (String.length (Itoa (1000 + Z.of_nat k))) 4)
                   (seq 0 (Z.to_nat 9000)) = true) by (vm_compute; reflexivity).
  rewrite forallb_forall in Hall.
  specialize (Hall (Z.to_nat (port - 1000))).
  replace (1000 + Z.of_nat (Z.to_nat (port - 1000))) with port in Hall by lia.
  apply Nat.eqb_eq, Hall, in_seq. lia.
Qed.

(** ... which is the port suffix of an address whose port has four digits,
    as the default port 8333 has. *)
Lemma clip_port_four_digits (a : CService) :
  1000 <= Port a <= 9999 -> clip_port (CService_String a) = Ok (IPAddress a).
Proof.
  intros H. unfold CService_String. apply clip_port_suffix.
  rewrite length_append, Itoa_four_digits by exact H. reflexivity.
Qed.

(** C4: the normalization clips five characters, whatever the number of
    digits of the port.  The address 1.2.3.4 with the port 80 is put in the
    map as 1.2.3, and with the port 18333 as 1.2.3.4 followed by a colon; the
    record is then not counted as reachable by a corpus that lists 1.2.3.4,
    as the same peer on port 8333 is. *)
Theorem clip_port_other_width :
  CService_String {| IPAddress := "1.2.3.4"; Port := 80 |} = "1.2.3.4:80"%string
  /\ clip_port (CService_String {| IPAddress := "1.2.3.4"; Port := 80 |})
  = Ok "1.2.3"%string
  /\ clip_port (CService_String {| IPAddress := "1.2.3.4"; Port := 18333 |})
     = Ok "1.2.3.4:"%string
  /\ table_loop Int64 100 [peer "1.2.3.4" 80 90] ∅ (Age CreateResult)
     = Ok ({["1.2.3"%string := true]}, bump B_1 (Age CreateResult))
  /\ map_outcome (fun r => NumberOfReachableIPs r.1)
       <$> [ComputeStats Int64 ["1.2.3.4"%string] 100 [peer "1.2.3.4" 80 90] [];
            ComputeStats Int64 ["1.2.3.4"%string] 100 [peer "1.2.3.4" 8333 90] []]
     = [Ok 0; Ok 1].
Proof.
  split; [reflexivity|].
  split; [reflexivity|]. split; [reflexivity|]. split; [reflexivity|].
  vm_compute. reflexivity.
Qed.

(** ** Snapshot locator *)

(** C3: the search window starts at [high = len(tsArray)] and [BinSearch]
    reads [tsArray[high]] when the window has narrowed to one element without
    [high] having moved.  On the one-element sequence [100] and the target 50
    the call panics with an index out of range, where it should return 100;
    so it does for a target above the last candidate, and on the empty
    sequence, for which the code has no case. *)
Theorem BinSearch_index_out_of_range :
  ClosestBitnodeTS [100] 50 = Panicked (IndexOutOfRange 1 1)
  /\ ClosestBitnodeTS [100; 200] 300 = Panicked (IndexOutOfRange 2 2)
  /\ (forall approxAge, ClosestBitnodeTS [] approxAge = Panicked (IndexOutOfRange 0 0))
  /\ ClosestBitnodeTS [100] 100 = Ok 100.
Proof. repeat split. Qed.

(** A sequence of one candidate is only searched without a panic for the
    candidate itself. *)
Lemma BinSearch_single (x approxAge : Z) :
  is_uint32 x -> approxAge <> x ->
  ClosestBitnodeTS [x] approxAge = Panicked (IndexOutOfRange 1 1).
Proof.
  intros Hx Hne. unfold ClosestBitnodeTS. simpl.
  unfold uint32. rewrite Z.mod_small by exact Hx.
  destruct (Z.eqb_spec x approxAge); [congruence|reflexivity].
Qed.

Lemma index_in_range {A} (l : list A) (i : Z) :
  0 <= i < len l -> exists x, l !! Z.to_nat i = Some x /\ index l i = Ok x.
Proof.
  unfold len. intros H.
  destruct (lookup_lt_is_Some_2 l (Z.to_nat i)) as [x Hx]; [lia|].
  exists x. split; [exact Hx|]. unfold index.
  destruct (Z.ltb_spec i 0); [lia|]. rewrite Hx. reflexivity.
Qed.

Lemma map_uint32_id (l : list Z) : Forall is_uint32 l -> map uint32 l = l.
Proof.
  induction 1 as [|x l Hx _ IH]; simpl; [reflexivity|].
  rewrite IH. unfold uint32. rewrite Z.mod_small by exact Hx. reflexivity.
Qed.

Lemma index_at_length {A} (l : list A) :
  index l (len l) = Panicked (IndexOutOfRange (len l) (length l)).
Proof.
  unfold index, len. destruct (Z.ltb_spec (Z.of_nat (length l)) 0); [lia|].
  rewrite Nat2Z.id, (lookup_ge_None_2 l (length l)) by lia. reflexivity.
Qed.

(** A target after every candidate moves [low] only, and the search ends
    with the read of [tsArray[len(tsArray)]]. *)
Lemma BinSearch_after_all (tsArray : list Z) (elem : Z) (fuel : nat) :
  Forall (fun x => x < elem) tsArray ->
  forall low,
    0 <= low < len tsArray -> len tsArray - low < Z.of_nat fuel ->
    BinSearch fuel low (len tsArray) elem tsArray
    = Panicked (IndexOutOfRange (len tsArray) (length tsArray)).
Proof.
  intros Hall. rewrite Forall_forall in Hall.
  induction fuel as [|fuel IH]; intros low Hlow Hfuel; [lia|].
  cbn [BinSearch].
  assert (Hmid : low <= (len tsArray + low) ÷ 2 < len tsArray).
  { rewrite Z.quot_div_nonneg by lia. Z.div_mod_to_equations. lia. }
  set (mid := (len tsArray + low) ÷ 2) in *.
  destruct (index_in_range tsArray mid) as (tm & Hm & ->); [lia|].
  cbn [bind].
  assert (Htm : tm < elem) by (apply Hall; eapply list_elem_of_lookup_2; exact Hm).
  destruct (Z.eqb_spec tm elem); [lia|].
  destruct (Z.eqb_spec mid low) as [Hml|Hml].
  - destruct (index_in_range tsArray low) as (tl & _ & ->); [lia|].
    cbn [bind]. rewrite index_at_length. reflexivity.
  - destruct (Z.ltb_spec elem tm); [lia|]. apply IH; lia.
Qed.

(** X5: for a target after every candidate of a sequence that is not
    empty, the locator panics: it reads the sequence at its length. *)
Lemma ClosestBitnodeTS_after_all (tsLines : list Z) (approxAge : Z) :
  tsLines <> [] -> Forall is_uint32 tsLines ->
  Forall (fun x => x < approxAge) tsLines ->
  ClosestBitnodeTS tsLines approxAge
  = Panicked (IndexOutOfRange (len tsLines) (length tsLines)).
Proof.
  intros Hne Hu Hall. unfold ClosestBitnodeTS.
  rewrite map_uint32_id by exact Hu.
  apply (BinSearch_after_all tsLines approxAge _ Hall 0).
  - unfold len. destruct tsLines; [congruence|simpl; lia].
  - unfold len. lia.
Qed.

Lemma sorted_lookup (l : list Z) :
  StronglySorted Z.le l ->
  forall (i j : nat) x y, l !! i = Some x -> l !! j = Some y -> (i <= j)%nat -> x <= y.
Proof.
  induction 1 as [|a l _ IH Ha]; intros i j x y Hi Hj Hij.
  - discriminate.
  - destruct i as [|i], j as [|j]; simpl in *; try lia.
    + injection Hi as <-. injection Hj as <-. lia.
    + injection Hi as <-. rewrite Forall_forall in Ha.
      apply Ha. eapply list_elem_of_lookup_2. exact Hj.
    + eapply IH; eauto. lia.
Qed.

Section Locator.

Variable tsArray : list Z.
Variable elem : Z.
Hypothesis tsArray_uint32 : Forall is_uint32 tsArray.
Hypothesis tsArray_sorted : StronglySorted Z.le tsArray.
Hypothesis elem_le_last : forall z, last tsArray = Some z -> elem <= z.

Lemma uint32_sub_small (a b : Z) :
  is_uint32 a -> is_uint32 b -> b <= a -> uint32_sub a b = a - b.
Proof.
  unfold is_uint32, uint32_sub, uint32. intros Ha Hb Hle.
  apply Z.mod_small. lia.
Qed.

Lemma lookup_uint32 (i : nat) (x : Z) : tsArray !! i = Some x -> is_uint32 x.
Proof.
  intros H. rewrite Forall_forall in tsArray_uint32.
  apply tsArray_uint32. eapply list_elem_of_lookup_2. exact H.
Qed.

(** The candidates on both sides of a window of one element. *)
Lemma window_sides (low : Z) (tl th x : Z) :
  0 <= low ->
  tsArray !! Z.to_nat low = Some tl ->
  tsArray !! Z.to_nat (low + 1) = Some th ->
  x ∈ tsArray -> x <= tl \/ th <= x.
Proof.
  intros Hlow Hl Hh [i Hi]%list_elem_of_lookup_1.
  destruct (Nat.le_gt_cases i (Z.to_nat low)) as [Hle|Hgt].
  - left. exact (sorted_lookup _ tsArray_sorted _ _ _ _ Hi Hl Hle).
  - right. apply (sorted_lookup _ tsArray_sorted _ _ _ _ Hh Hi). lia.
Qed.

Lemma BinSearch_window (fuel : nat) :
  forall low high,
    window tsArray elem low high -> high - low < Z.of_nat fuel ->
    exists r, BinSearch fuel low high elem tsArray = Ok r
              /\ closest_later tsArray elem r.
Proof.
  induction fuel as [|fuel IH]; intros low high W Hfuel.
  - destruct W. lia.
  - destruct W as [Hlow Hlt Hhigh Hbelow Habove Hend].
    cbn [BinSearch].
    assert (Hmid : low <= (high + low) ÷ 2 < high).
    { rewrite Z.quot_div_nonneg by lia. Z.div_mod_to_equations. lia. }
    set (mid := (high + low) ÷ 2) in *.
    destruct (index_in_range tsArray mid) as (tm & Hm & ->); [lia|].
    cbn [bind].
    destruct (Z.eqb_spec tm elem) as [Heq|Hne].
    { (* found *)
      exists elem. split; [reflexivity|]. split.
      - subst tm. eapply list_elem_of_lookup_2. exact Hm.
      - intros x _. split; [lia|]. lia. }
    destruct (Z.eqb_spec mid low) as [Hml|Hml].
    { (* the window has one element *)
      assert (Hh1 : high = low + 1).
      { subst mid. rewrite Z.quot_div_nonneg in Hml by lia.
        Z.div_mod_to_equations. lia. }
      assert (Hh2 : high < len tsArray).
      { destruct (Z.eq_dec high (len tsArray)) as [E|E]; [|lia].
        specialize (Hend E). lia. }
      rewrite Hml in Hm.
      destruct (index_in_range tsArray low) as (tl & Hl & ->); [lia|].
      destruct (index_in_range tsArray high) as (th & Hh & ->); [lia|].
      cbn [bind].
      assert (tl = tm) by congruence. subst tl.
      pose proof (Hbelow _ Hl) as Hb. pose proof (Habove _ Hh) as Ha.
      pose proof (lookup_uint32 _ _ Hl) as Ul.
      pose proof (lookup_uint32 _ _ Hh) as Uh.
      assert (Ue : is_uint32 elem) by (unfold is_uint32 in *; lia).
      rewrite !uint32_sub_small by (assumption || lia).
      rewrite Hh1 in Hh.
      destruct (Z.ltb_spec (elem - tm) (th - elem)) as [Hc|Hc].
      - exists tm. split; [reflexivity|]. split.
        + eapply list_elem_of_lookup_2. exact Hl.
        + intros x Hx.
          destruct (window_sides low tm th x Hlow Hl Hh Hx); split; lia.
      - exists th. split; [reflexivity|]. split.
        + eapply list_elem_of_lookup_2. exact Hh.
        + intros x Hx.
          destruct (window_sides low tm th x Hlow Hl Hh Hx); split; lia. }
    destruct (Z.ltb_spec elem tm) as [Hc|Hc].
    + (* left half *)
      apply IH; [|lia].
      constructor; try lia; try assumption.
      intros y Hy. congruence.
    + (* right half *)
      apply IH; [|lia].
      constructor; try lia; try assumption.
      * intros x Hx. assert (x = tm) by congruence. lia.
      * intros E.
        destruct (Z.eq_dec (mid + 1) high) as [E1|E1]; [|lia].
        exfalso.
        assert (Hlast : last tsArray = Some tm).
        { rewrite last_lookup, <- Hm. f_equal. unfold len in *. lia. }
        specialize (elem_le_last _ Hlast). lia.
Qed.

End Locator.

(** C2, amended: for every ascending sequence of at least two candidate
    timestamps and every target that is not before the first candidate and
    not after the last one, the snapshot locator returns a member of the
    sequence that no other member is strictly closer to the target than, and
    of two candidates that are equally close it returns the higher (later)
    one. *)
Theorem ClosestBitnodeTS_closest (first final : Z) (middle : list Z)
  (approxAge : Z) :
  Forall is_uint32 (first :: middle ++ [final]) ->
  Sorted Z.le (first :: middle ++ [final]) ->
  first <= approxAge <= final ->
  exists bitnodeTS,
    ClosestBitnodeTS (first :: middle ++ [final]) approxAge = Ok bitnodeTS
    /\ closest_later (first :: middle ++ [final]) approxAge bitnodeTS.
Proof.
  intros Hu Hs Hb. unfold ClosestBitnodeTS.
  rewrite map_uint32_id by exact Hu.
  set (ts := first :: middle ++ [final]) in *.
  assert (Hlen : 2 <= len ts).
  { unfold len, ts. simpl. rewrite length_app. simpl. lia. }
  apply BinSearch_window.
  - exact Hu.
  - apply Sorted_StronglySorted; [red; intros; lia|exact Hs].
  - intros z Hz. unfold ts in Hz.
    change (first :: middle ++ [final]) with ((first :: middle) ++ [final]) in Hz.
    rewrite last_snoc in Hz. injection Hz as <-. lia.
  - unfold len in *. constructor; try (unfold len; lia).
    + intros x Hx. injection Hx as <-. lia.
    + intros y Hy. apply lookup_lt_Some in Hy. lia.
  - lia.
Qed.

Lemma ClosestBitnodeTS_closest_witness :
  exists bitnodeTS,
    ClosestBitnodeTS [100; 200; 300] 250 = Ok bitnodeTS
    /\ closest_later [100; 200; 300] 250 bitnodeTS.
Proof.
  apply (ClosestBitnodeTS_closest 100 300 [200] 250).
  - repeat constructor; unfold is_uint32, uint32_max; simpl; lia.
  - repeat constructor; lia.
  - lia.
Defined.

(** C2 as stated fails: 200 and 300 are equally close to 250, and the
    locator returns 300. *)
Lemma ClosestBitnodeTS_tie_later :
  ~ (forall tsLines approxAge,
        tsLines <> [] -> Sorted Z.le tsLines ->
        exists bitnodeTS,
          ClosestBitnodeTS tsLines approxAge = Ok bitnodeTS
          /\ closest_earlier tsLines approxAge bitnodeTS).
Proof.
  intros H.
  destruct (H [100; 200; 300] 250) as (r & Hr & Hce).
  - discriminate.
  - repeat constructor; lia.
  - vm_compute in Hr. injection Hr as <-. destruct Hce as [_ Hc].
    assert (Hin : 200 ∈ [100; 200; 300]) by (right; left).
    destruct (Hc 200 Hin) as [_ Htie].
    specialize (Htie eq_refl). lia.
Qed.

Example ClosestBitnodeTS_below_first : ClosestBitnodeTS [100; 200] 0 = Ok 200.
Proof. reflexivity. Qed.

(** ** Age estimator *)

Lemma ApproxAge_loop_max (table : list CAddrInfo) :
  forall (done : list CAddrInfo) (rest : list CAddrInfo) (approxAge : Z),
    table = done ++ rest ->
    ApproxAge_loop (length rest) (len done) table approxAge
    = Ok (foldr Z.max approxAge (timestamps rest)).
Proof.
  intros done rest. revert done.
  induction rest as [|a rest IH]; intros done approxAge Heq; simpl.
  - reflexivity.
  - destruct (index_in_range table (len done)) as (x & Hx & ->).
    { subst table. unfold len. rewrite length_app. simpl. lia. }
    assert (x = a).
    { subst table. unfold len in Hx. rewrite Nat2Z.id in Hx.
      rewrite list_lookup_middle in Hx by reflexivity. congruence. }
    subst x. simpl.
    replace (len done + 1) with (len (done ++ [a]))
      by (unfold len; rewrite length_app; simpl; lia).
    rewrite (IH (done ++ [a])) by (rewrite <- app_assoc; exact Heq).
    f_equal.
    assert (Hmax : forall l s s', s <= s' ->
              Z.max s' (foldr Z.max s l) = foldr Z.max s' l).
    { clear. induction l as [|t l IHl]; simpl; intros s s' Hs; [lia|].
      specialize (IHl s s' Hs). lia. }
    destruct (Z.ltb_spec approxAge (Time (Address a))) as [Hlt|Hge].
    + rewrite <- (Hmax _ approxAge (Time (Address a))) by lia.
      clear. induction (timestamps rest); simpl; lia.
    + rewrite <- (Hmax _ approxAge approxAge) by lia.
      assert (approxAge <= foldr Z.max approxAge (timestamps rest))
        by (clear; induction (timestamps rest); simpl; lia).
      lia.
Qed.

Lemma ApproxAge_max (peersDb : PeersDB) :
  counts_match peersDb ->
  ApproxAge peersDb = Ok (foldr Z.max 0 (timestamps (records peersDb))).
Proof.
  intros [Hn Ht]. unfold ApproxAge. rewrite Hn, Ht. unfold len.
  rewrite !Nat2Z.id.
  pose proof (fun s => ApproxAge_loop_max (NewAddrInfo peersDb) []
                         (NewAddrInfo peersDb) s eq_refl) as Ln.
  pose proof (fun s => ApproxAge_loop_max (TriedAddrInfo peersDb) []
                         (TriedAddrInfo peersDb) s eq_refl) as Lt.
  change (len []) with 0 in Ln, Lt.
  rewrite Ln. simpl. rewrite Lt.
  f_equal. unfold records, timestamps. rewrite map_app, foldr_app.
  assert (Hswap : forall l1 l2 s,
            foldr Z.max (foldr Z.max s l1) l2 = foldr Z.max (foldr Z.max s l2) l1).
  { clear. induction l1 as [|t l1 IH]; intros l2 s; simpl; [reflexivity|].
    rewrite <- IH. clear. induction l2 as [|u l2 IH2]; simpl; [reflexivity|].
    rewrite IH2. lia. }
  apply Hswap.
Qed.

Lemma foldr_max_upper (l : list Z) (s x : Z) : x ∈ l -> x <= foldr Z.max s l.
Proof. induction 1; simpl; lia. Qed.

Lemma foldr_max_member (l : list Z) (s : Z) :
  foldr Z.max s l = s \/ foldr Z.max s l ∈ l.
Proof.
  induction l as [|x l [IH|IH]]; simpl.
  - left. reflexivity.
  - rewrite IH. destruct (Z.max_spec x s) as [[_ ->]|[_ ->]]; [left; reflexivity|].
    right. left.
  - destruct (Z.max_spec x (foldr Z.max s l)) as [[_ ->]|[_ ->]].
    + right. right. exact IH.
    + right. left.
Qed.

Lemma foldr_max_uint32 (l : list Z) :
  Forall is_uint32 l -> is_uint32 (foldr Z.max 0 l).
Proof.
  unfold is_uint32, uint32_max.
  induction 1 as [|x l Hx _ IH]; simpl; lia.
Qed.

(** ** The run *)

(** With or without an error of the decoder, [main] runs the same stages on
    the value the decoder returned. *)
Lemma main_error_ignored (sz : int_size) (w : World) (peersDb : PeersDB)
  (err : option string) :
  NewPeersDB w = (peersDb, err) ->
  let w' := {| NewPeersDB := (peersDb, None); tsFile := tsFile w;
               bitnodeFile := bitnodeFile w |} in
  main sz w = (printed err ++ (main sz w').1, (main sz w').2).
Proof.
  intros H. unfold main. rewrite H. cbn [NewPeersDB tsFile bitnodeFile].
  set (k := fun _ : unit => _).
  destruct err as [e|]; unfold tbind; destruct (k tt) as [t r]; reflexivity.
Qed.

Lemma tbind_ret {A B} (a : A) (k : A -> traced B) : tbind ([], Ok a) k = k a.
Proof. unfold tbind. destruct (k a). reflexivity. Qed.

Lemma tbind_call {A B} (e : event) (r : outcome A) (k : A -> traced B) :
  (tbind (call e r) k).1
  = e :: match r with
         | Ok a => (k a).1
         | _ => []
         end.
Proof. unfold tbind, call. destruct r; [destruct (k a)|..]; reflexivity. Qed.

(** The first two stages of a run. *)
Lemma main_first_stages (sz : int_size) (w : World) (peersDb : PeersDB)
  (err : option string) (approxAge : Z) :
  NewPeersDB w = (peersDb, err) ->
  ApproxAge peersDb = Ok approxAge ->
  exists rest,
    (main sz w).1
    = printed err ++ Call_ApproxAge peersDb :: Call_ClosestBitnodeTS approxAge :: rest.
Proof.
  intros H Ha. rewrite (main_error_ignored sz w peersDb err H).
  cbn [fst]. unfold main. cbn [NewPeersDB tsFile bitnodeFile].
  rewrite tbind_ret, tbind_call, Ha, tbind_call. eauto.
Qed.

Lemma tbind_call_eq {A B} (e : event) (r : outcome A) (k : A -> traced B) :
  tbind (call e r) k
  = match r with
    | Ok a => (e :: (k a).1, (k a).2)
    | Panicked p => ([e], Panicked p)
    | NoFuel => ([e], NoFuel)
    end.
Proof. unfold tbind, call. destruct r; [destruct (k a)|..]; reflexivity. Qed.

(** What a run does and returns, by what its stages return. *)
Lemma main_cases (sz : int_size) (w : World) (peersDb : PeersDB)
  (err : option string) :
  NewPeersDB w = (peersDb, err) ->
  main sz w
  = match ApproxAge peersDb with
    | Ok approxAge =>
        match ClosestBitnodeTS (tsFile w) approxAge with
        | Ok bitnodeTS =>
            match ComputeStats sz (bitnodeFile w (int_of_uint32 sz bitnodeTS))
                    approxAge (NewAddrInfo peersDb) (TriedAddrInfo peersDb) with
            | Ok results =>
                (printed err
                   ++ [Call_ApproxAge peersDb; Call_ClosestBitnodeTS approxAge;
                       Call_ComputeStats bitnodeTS approxAge;
                       Call_WriteOutput approxAge results.1 results.2],
                 Ok (WriteOutput sz approxAge results.1 results.2))
            | Panicked p =>
                (printed err
                   ++ [Call_ApproxAge peersDb; Call_ClosestBitnodeTS approxAge;
                       Call_ComputeStats bitnodeTS approxAge],
                 Panicked p)
            | NoFuel =>
                (printed err
                   ++ [Call_ApproxAge peersDb; Call_ClosestBitnodeTS approxAge;
                       Call_ComputeStats bitnodeTS approxAge],
                 NoFuel)
            end
        | Panicked p =>
            (printed err
               ++ [Call_ApproxAge peersDb; Call_ClosestBitnodeTS approxAge],
             Panicked p)
        | NoFuel =>
            (printed err
               ++ [Call_ApproxAge peersDb; Call_ClosestBitnodeTS approxAge],
             NoFuel)
        end
    | Panicked p => (printed err ++ [Call_ApproxAge peersDb], Panicked p)
    | NoFuel => (printed err ++ [Call_ApproxAge peersDb], NoFuel)
    end.
Proof.
  intros H. rewrite (main_error_ignored sz w peersDb err H).
  unfold main. cbn [NewPeersDB tsFile bitnodeFile].
  rewrite tbind_ret, tbind_call_eq.
  destruct (ApproxAge peersDb) as [approxAge| |]; [|reflexivity..].
  rewrite tbind_call_eq.
  destruct (ClosestBitnodeTS (tsFile w) approxAge) as [bitnodeTS| |];
    [|reflexivity..].
  rewrite tbind_call_eq.
  destruct (ComputeStats _ _ _ _ _) as [results| |]; reflexivity.
Qed.

(** C1, amended: if decoding the snapshot fails, [main] prints the error and
    goes on: it runs the statistics stages, the age estimation first, on the
    database value that the decoder returned with the error, as it does when
    the decoder returns that value without an error. *)
Theorem main_decode_error (sz : int_size) (w : World) (peersDb : PeersDB)
  (e : string) :
  NewPeersDB w = (peersDb, Some e) ->
  let w' := {| NewPeersDB := (peersDb, None); tsFile := tsFile w;
               bitnodeFile := bitnodeFile w |} in
  main sz w = (Println e :: (main sz w').1, (main sz w').2)
  /\ exists rest, (main sz w').1 = Call_ApproxAge peersDb :: rest.
Proof.
  intros H w'. split.
  - exact (main_error_ignored sz w peersDb (Some e) H).
  - unfold main, w'. cbn [NewPeersDB tsFile bitnodeFile].
    rewrite tbind_ret, tbind_call. eauto.
Qed.

Lemma main_decode_error_witness :
  exists rest,
    (main Int64 failed_world).1
    = Println "unexpected EOF" :: Call_ApproxAge empty_db :: rest.
Proof.
  destruct (main_decode_error Int64 failed_world empty_db "unexpected EOF" eq_refl)
    as [Heq [rest Hrest]].
  exists rest. rewrite Heq. cbn [fst]. rewrite Hrest. reflexivity.
Defined.

(** C1 as stated fails: a run whose decoder returns an error with an empty
    database calls every stage. *)
Lemma main_decode_error_runs_stages :
  ~ (forall sz w,
        (NewPeersDB w).2 <> None ->
        Forall (fun ev => is_stage ev = false) (main sz w).1).
Proof.
  intros H. specialize (H Int64 failed_world ltac:(discriminate)).
  rewrite Forall_forall in H.
  specialize (H (Call_ApproxAge empty_db)).
  assert (Hin : Call_ApproxAge empty_db ∈ (main Int64 failed_world).1).
  { vm_compute. right. left. }
  specialize (H Hin). discriminate H.
Qed.

(** ** Age estimator and its caller *)

(** C9, amended: given a database whose counts are the lengths of its
    tables, [ApproxAge] returns a timestamp that no record's last-seen
    timestamp exceeds, the timestamp of one of the records when there is at
    least one (the maximum across both tables combined), and 0 when both
    tables are empty; the caller goes on with what it returns, 0 included,
    as the target of the snapshot locator. *)
Theorem ApproxAge_maximum (peersDb : PeersDB) :
  counts_match peersDb ->
  Forall (fun a => is_uint32 (Time (Address a))) (records peersDb) ->
  exists approxAge,
    ApproxAge peersDb = Ok approxAge
    /\ (forall a, a ∈ records peersDb -> Time (Address a) <= approxAge)
    /\ (records peersDb <> [] ->
        exists a, a ∈ records peersDb /\ approxAge = Time (Address a))
    /\ (records peersDb = [] -> approxAge = 0)
    /\ (forall sz w err,
           NewPeersDB w = (peersDb, err) ->
           exists rest,
             (main sz w).1
             = printed err ++ Call_ApproxAge peersDb
                 :: Call_ClosestBitnodeTS approxAge :: rest).
Proof.
  intros Hc Hu. pose proof (ApproxAge_max peersDb Hc) as Ha.
  eexists. split; [exact Ha|].
  assert (Hup : forall a, a ∈ records peersDb ->
                  Time (Address a) <= foldr Z.max 0 (timestamps (records peersDb))).
  { intros a Hin. apply foldr_max_upper. unfold timestamps.
    apply list_elem_of_fmap. exists a. done. }
  split; [exact Hup|]. split; [|split].
  - intros Hne.
    destruct (foldr_max_member (timestamps (records peersDb)) 0) as [H0|Hin].
    + destruct (records peersDb) as [|a0 l] eqn:E; [congruence|].
      exists a0. split; [left|].
      rewrite Forall_forall in Hu.
      assert (Hin0 : a0 ∈ a0 :: l) by left.
      pose proof (Hu a0 Hin0) as [Hge _]. pose proof (Hup a0 Hin0). lia.
    + unfold timestamps in Hin at 2.
      apply list_elem_of_fmap in Hin as (a & Heq & Hin). eauto.
  - intros ->. reflexivity.
  - intros sz w err Hw. exact (main_first_stages sz w peersDb err _ Hw Ha).
Qed.

Lemma ApproxAge_maximum_witness :
  exists approxAge,
    ApproxAge sample_db = Ok approxAge
    /\ forall a, a ∈ records sample_db -> Time (Address a) <= approxAge.
Proof.
  destruct (ApproxAge_maximum sample_db) as (approxAge & Ha & Hup & _).
  - split; reflexivity.
  - repeat constructor; unfold is_uint32, uint32_max; simpl; lia.
  - exists approxAge. split; [exact Ha|exact Hup].
Defined.

Example ApproxAge_sample : ApproxAge sample_db = Ok 99.
Proof. reflexivity. Qed.

(** C9 as stated fails: for the database with two empty tables [ApproxAge]
    returns 0 and the run goes on, with the locator called for the target
    0. *)
Lemma empty_database_age_zero :
  ~ (forall sz w,
        records (NewPeersDB w).1 = [] ->
        forall approxAge, Call_ClosestBitnodeTS approxAge ∉ (main sz w).1).
Proof.
  intros H.
  apply (H Int64 {| NewPeersDB := (empty_db, None); tsFile := [100; 200];
                    bitnodeFile := fun _ => [] |} eq_refl 0).
  vm_compute. right. left.
Qed.

Example ApproxAge_empty : ApproxAge empty_db = Ok 0.
Proof. reflexivity. Qed.

(** ** Age bucketer and its caller *)





(** * Further properties *)

(** ** Snapshot locator *)

Lemma index_Ok_member {A} (l : list A) (i : Z) (x : A) :
  index l i = Ok x -> x ∈ l.
Proof.
  unfold index. destruct (i <? 0); [discriminate|].
  destruct (l !! Z.to_nat i) eqn:E; [|discriminate].
  intros [= <-]. eapply list_elem_of_lookup_2. exact E.
Qed.

Lemma index_fuel {A} (l : list A) (i : Z) : index l i <> NoFuel.
Proof.
  unfold index. destruct (i <? 0); [discriminate|].
  destruct (l !! Z.to_nat i); discriminate.
Qed.

(** The search of a window [low <= high] takes fewer calls than it has
    elements, and what it returns is a candidate. *)
Lemma BinSearch_returns_candidate (tsArray : list Z) (elem : Z) (fuel : nat) :
  forall low high,
    0 <= low <= high -> high - low < Z.of_nat fuel ->
    BinSearch fuel low high elem tsArray <> NoFuel
    /\ forall r, BinSearch fuel low high elem tsArray = Ok r -> r ∈ tsArray.
Proof.
  induction fuel as [|fuel IH]; intros low high Hlh Hfuel; [lia|].
  cbn [BinSearch].
  assert (Hmid : low <= (high + low) ÷ 2 <= high
                 /\ (low < high -> (high + low) ÷ 2 < high)).
  { rewrite Z.quot_div_nonneg by lia. Z.div_mod_to_equations. lia. }
  set (mid := (high + low) ÷ 2) in *.
  pose proof (index_fuel tsArray mid) as Fm.
  destruct (index tsArray mid) as [tm| |] eqn:Hm; cbn [bind];
    [|split; [discriminate|intros r; discriminate]|congruence].
  apply index_Ok_member in Hm.
  destruct (Z.eqb_spec tm elem) as [Heq|Hne].
  { split; [discriminate|]. intros r [= <-]. subst tm. exact Hm. }
  destruct (Z.eqb_spec mid low) as [Hml|Hml].
  { pose proof (index_fuel tsArray low) as Fl.
    pose proof (index_fuel tsArray high) as Fh.
    destruct (index tsArray low) as [tl| |] eqn:Hl; cbn [bind];
      [|split; [discriminate|intros r; discriminate]|congruence].
    destruct (index tsArray high) as [th| |] eqn:Hh; cbn [bind];
      [|split; [discriminate|intros r; discriminate]|congruence].
    apply index_Ok_member in Hl, Hh.
    destruct (_ <? _); (split; [discriminate|]); intros r [= <-]; assumption. }
  destruct (Z.ltb_spec elem tm); apply IH; lia.
Qed.

(** X1: whatever the timestamp file holds, sorted or not, the search of
    [ClosestBitnodeTS] ends, and a timestamp it returns is one of the
    candidates of the file. *)
Theorem ClosestBitnodeTS_candidate (tsLines : list Z) (approxAge : Z) :
  ClosestBitnodeTS tsLines approxAge <> NoFuel
  /\ forall bitnodeTS,
       ClosestBitnodeTS tsLines approxAge = Ok bitnodeTS ->
       bitnodeTS ∈ map uint32 tsLines.
Proof.
  unfold ClosestBitnodeTS. apply BinSearch_returns_candidate; lia.
Qed.

Lemma ClosestBitnodeTS_candidate_witness :
  ClosestBitnodeTS [300; 100; 200] 150 = Ok 200
  /\ 200 ∈ map uint32 [300; 100; 200].
Proof.
  split; [reflexivity|].
  exact (proj2 (ClosestBitnodeTS_candidate [300; 100; 200] 150) 200 eq_refl).
Defined.

(** X2: a target that is one of the candidates of an ascending sequence is
    returned as it is. *)
Theorem ClosestBitnodeTS_member (tsLines : list Z) (approxAge : Z) :
  Forall is_uint32 tsLines ->
  Sorted Z.le tsLines ->
  approxAge ∈ tsLines ->
  ClosestBitnodeTS tsLines approxAge = Ok approxAge.
Proof.
  intros Hu Hs Hin.
  assert (Hss : StronglySorted Z.le tsLines).
  { apply Sorted_StronglySorted; [red; intros; lia|exact Hs]. }
  destruct (list_elem_of_lookup_1 _ _ Hin) as [i Hi].
  pose proof (lookup_lt_Some _ _ _ Hi) as Hilt.
  destruct (Nat.eq_dec (length tsLines) 1%nat) as [H1|H1].
  { destruct tsLines as [|x [|y l]]; simpl in H1; try lia.
    apply list_elem_of_singleton in Hin. subst x.
    unfold ClosestBitnodeTS. rewrite map_uint32_id by exact Hu.
    simpl. rewrite Z.eqb_refl. reflexivity. }
  unfold ClosestBitnodeTS. rewrite map_uint32_id by exact Hu.
  destruct (BinSearch_window tsLines approxAge Hu Hss) with
    (fuel := S (length tsLines)) (low := 0) (high := Z.of_nat (length tsLines))
    as (r & Hr & Hmem & Hclose).
  - intros z Hz. rewrite last_lookup in Hz.
    apply (sorted_lookup _ Hss _ _ _ _ Hi Hz). lia.
  - constructor; unfold len; try lia.
    + intros x Hx. apply (sorted_lookup _ Hss _ _ _ _ Hx Hi). lia.
    + intros y Hy. apply lookup_lt_Some in Hy. lia.
  - lia.
  - rewrite Hr. f_equal. destruct (Hclose approxAge Hin) as [Hd _]. lia.
Qed.

Lemma ClosestBitnodeTS_member_witness :
  ClosestBitnodeTS [100; 200; 200; 300] 200 = Ok 200.
Proof.
  apply ClosestBitnodeTS_member.
  - repeat constructor; unfold is_uint32, uint32_max; simpl; lia.
  - repeat constructor; lia.
  - right. left.
Defined.

(** X3: a sequence of one candidate is searched without a panic for that
    candidate only. *)
Theorem ClosestBitnodeTS_single (x approxAge bitnodeTS : Z) :
  is_uint32 x ->
  ClosestBitnodeTS [x] approxAge = Ok bitnodeTS
  <-> approxAge = x /\ bitnodeTS = x.
Proof.
  intros Hx. split.
  - intros H. destruct (Z.eq_dec approxAge x) as [->|Hne].
    + split; [reflexivity|].
      unfold ClosestBitnodeTS in H. simpl in H.
      unfold uint32 in H. rewrite Z.mod_small in H by exact Hx.
      rewrite Z.eqb_refl in H. congruence.
    + rewrite (BinSearch_single x approxAge Hx Hne) in H. discriminate.
  - intros [-> ->]. unfold ClosestBitnodeTS. simpl.
    unfold uint32. rewrite Z.mod_small by exact Hx.
    rewrite Z.eqb_refl. reflexivity.
Qed.

Lemma ClosestBitnodeTS_single_witness :
  ClosestBitnodeTS [100] 100 = Ok 100.
Proof.
  apply (ClosestBitnodeTS_single 100 100 100).
  - unfold is_uint32, uint32_max. lia.
  - split; reflexivity.
Defined.

(** A target before every candidate moves [high] only, down to the window
    of the first candidate, and the first two candidates are compared by
    differences of which the first has wrapped. *)
Lemma BinSearch_before_all (first second : Z) (rest : list Z) (elem : Z)
  (fuel : nat) :
  let tsArray := first :: second :: rest in
  Forall is_uint32 tsArray -> 0 <= elem ->
  Forall (fun x => elem < x) tsArray ->
  forall high,
    1 <= high <= len tsArray -> high < Z.of_nat fuel ->
    BinSearch fuel 0 high elem tsArray
    = Ok (if elem - first + 2 ^ 32 <? second - elem then first else second).
Proof.
  intros tsArray Hu He Hall.
  assert (Hlen : 2 <= len tsArray).
  { unfold len, tsArray. simpl. lia. }
  assert (Hf : is_uint32 first /\ is_uint32 second /\ elem < first /\ elem < second).
  { unfold tsArray in Hu, Hall.
    inversion Hu as [|? ? ? Hu']; inversion Hu'; subst.
    inversion Hall as [|? ? ? Hall']; inversion Hall'; subst. tauto. }
  destruct Hf as (Uf & Us & Lf & Ls).
  rewrite Forall_forall in Hall.
  induction fuel as [|fuel IH]; intros high Hhigh Hfuel; [lia|].
  cbn [BinSearch].
  assert (Hmid : 0 <= (high + 0) ÷ 2 < high
                 /\ ((high + 0) ÷ 2 = 0 <-> high = 1)).
  { rewrite Z.quot_div_nonneg by lia. Z.div_mod_to_equations. lia. }
  set (mid := (high + 0) ÷ 2) in *.
  destruct (index_in_range tsArray mid) as (tm & Hm & ->); [lia|].
  cbn [bind].
  assert (Htm : elem < tm) by (apply Hall; eapply list_elem_of_lookup_2; exact Hm).
  destruct (Z.eqb_spec tm elem); [lia|].
  destruct (Z.eqb_spec mid 0) as [Hml|Hml].
  - assert (high = 1) by lia. subst high.
    change (index tsArray 0) with (Ok (A:=Z) first).
    change (index tsArray 1) with (Ok (A:=Z) second).
    cbn [bind].
    replace (uint32_sub elem first) with (elem - first + 2 ^ 32).
    2:{ unfold uint32_sub, uint32, uint32_max, is_uint32, uint32_max in *.
        symmetry. rewrite <- (Z.mod_small (elem - first + 2 ^ 32) (2 ^ 32)) by lia.
        rewrite <- (Z_mod_plus_full (elem - first) 1 (2 ^ 32)).
        f_equal; lia. }
    rewrite uint32_sub_small
      by (unfold is_uint32, uint32_max in *; try split; lia).
    destruct (_ <? _); reflexivity.
  - destruct (Z.ltb_spec elem tm); [|lia]. apply IH; lia.
Qed.

(** X4: for a target before every candidate of a sequence of two or more,
    the locator compares the first two candidates only, with the distance
    to the first one wrapped; it returns the second candidate, which is not
    closer than the first, unless the two candidates add up to more than
    2^32 plus twice the target. *)
Theorem ClosestBitnodeTS_before_all (first second : Z) (rest : list Z)
  (approxAge : Z) :
  Forall is_uint32 (first :: second :: rest) -> 0 <= approxAge ->
  Forall (fun x => approxAge < x) (first :: second :: rest) ->
  ClosestBitnodeTS (first :: second :: rest) approxAge
  = Ok (if approxAge - first + 2 ^ 32 <? second - approxAge
        then first else second)
  /\ (first + second <= 2 ^ 32 + 2 * approxAge ->
      ClosestBitnodeTS (first :: second :: rest) approxAge = Ok second).
Proof.
  intros Hu He Hall.
  assert (H : ClosestBitnodeTS (first :: second :: rest) approxAge
              = Ok (if approxAge - first + 2 ^ 32 <? second - approxAge
                    then first else second)).
  { unfold ClosestBitnodeTS. rewrite map_uint32_id by exact Hu.
    apply (BinSearch_before_all first second rest approxAge _ Hu He Hall).
    - unfold len. simpl. lia.
    - lia. }
  split; [exact H|]. intros Hsum. rewrite H.
  destruct (Z.ltb_spec (approxAge - first + 2 ^ 32) (second - approxAge)); [lia|].
  reflexivity.
Qed.

Lemma ClosestBitnodeTS_before_all_witness :
  ClosestBitnodeTS [100; 200; 300] 50 = Ok 200.
Proof.
  apply (ClosestBitnodeTS_before_all 100 200 [300] 50).
  - repeat constructor; unfold is_uint32, uint32_max; simpl; lia.
  - lia.
  - repeat constructor; lia.
  - lia.
Defined.

Lemma ClosestBitnodeTS_after_all_witness :
  ClosestBitnodeTS [100; 200; 300] 400 = Panicked (IndexOutOfRange 3 3).
Proof.
  apply (ClosestBitnodeTS_after_all [100; 200; 300] 400).
  - discriminate.
  - repeat constructor; unfold is_uint32, uint32_max; simpl; lia.
  - repeat constructor; lia.
Defined.

(** ** Age bucketer *)

(** X6: a record that is not newer than the reference, and less than 2^31
    seconds older, is counted by its age, the reference less its timestamp:
    up to a day in the first bucket, more than a day and less than five in
    the second, from five days on and less than ten in the third, from ten
    days on and less than thirty in the fourth, and from thirty days on in
    the last one; so it is for either width of [int]. *)
Theorem AddToAgeBucket_ranges (sz : int_size) (b : AgeBuckets)
  (ipTimestamp approxAge : Z) :
  is_uint32 ipTimestamp -> is_uint32 approxAge ->
  ipTimestamp <= approxAge -> approxAge - ipTimestamp < 2 ^ 31 ->
  let age := approxAge - ipTimestamp in
  (age <= 86400 -> AddToAgeBucket sz b ipTimestamp approxAge = bump B_1 b)
  /\ (86400 < age < 432000 ->
      AddToAgeBucket sz b ipTimestamp approxAge = bump B_1_5 b)
  /\ (432000 <= age < 864000 ->
      AddToAgeBucket sz b ipTimestamp approxAge = bump B_5_10 b)
  /\ (864000 <= age < 2592000 ->
      AddToAgeBucket sz b ipTimestamp approxAge = bump B_10_30 b)
  /\ (2592000 <= age -> AddToAgeBucket sz b ipTimestamp approxAge = bump B_30 b).
Proof.
  intros H1 H2 H3 H4 age.
  rewrite AddToAgeBucket_bump, ipAge_difference by assumption.
  fold age. unfold bucket_of_age.
  change ONE_DAY with 86400. change FIVE_DAYS with 432000.
  change TEN_DAYS with 864000. change THIRTY_DAYS with 2592000.
  repeat split; intros Hage;
    repeat match goal with
           | |- context [?x <=? ?y] => destruct (Z.leb_spec x y); try lia
           | |- context [?x <? ?y] => destruct (Z.ltb_spec x y); try lia
           end; reflexivity.
Qed.

Lemma AddToAgeBucket_ranges_witness :
  AddToAgeBucket Int32 (Age CreateResult) 1000 (1000 + 86401)
  = bump B_1_5 (Age CreateResult).
Proof.
  refine (proj1 (proj2 (AddToAgeBucket_ranges Int32 (Age CreateResult)
                          1000 (1000 + 86401) _ _ _ _)) _);
    unfold is_uint32, uint32_max; lia.
Defined.

Lemma newer_record_counted_oldest_witness :
  AddToAgeBucket Int64 (Age CreateResult) 200 100 = bump B_30 (Age CreateResult).
Proof.
  apply newer_record_counted_oldest;
    unfold is_uint32, uint32_max, THIRTY_DAYS, TEN_DAYS, FIVE_DAYS, ONE_DAY; lia.
Defined.

(** X8: where [int] has 32 bits, the age of a record newer than the
    reference by at most 2^31 seconds is negative, and the record is counted
    in the first bucket. *)
Theorem newer_record_int32 (b : AgeBuckets) (ipTimestamp approxAge : Z) :
  is_uint32 ipTimestamp -> is_uint32 approxAge ->
  approxAge < ipTimestamp <= approxAge + 2 ^ 31 ->
  int_of_uint32 Int32 (uint32_sub approxAge ipTimestamp) = approxAge - ipTimestamp
  /\ AddToAgeBucket Int32 b ipTimestamp approxAge = bump B_1 b.
Proof.
  intros H1 H2 H3.
  assert (H : int_of_uint32 Int32 (uint32_sub approxAge ipTimestamp)
              = approxAge - ipTimestamp).
  { unfold is_uint32, uint32_max, int_of_uint32, uint32_sub, uint32, uint32_max in *.
    simpl int_bits.
    replace ((approxAge - ipTimestamp) mod 2 ^ 32)
      with (approxAge - ipTimestamp + 2 ^ 32).
    2:{ symmetry.
        rewrite <- (Z.mod_small (approxAge - ipTimestamp + 2 ^ 32) (2 ^ 32)) by lia.
        rewrite <- (Z_mod_plus_full (approxAge - ipTimestamp) 1 (2 ^ 32)).
        f_equal; lia. }
    rewrite Z.mod_small by lia. change (2 ^ 32 / 2) with (2 ^ 31).
    destruct (Z.ltb_spec (approxAge - ipTimestamp + 2 ^ 32) (2 ^ 31)); lia. }
  split; [exact H|].
  rewrite AddToAgeBucket_bump, H. unfold bucket_of_age.
  change ONE_DAY with 86400.
  destruct (Z.leb_spec (approxAge - ipTimestamp) 86400); [reflexivity|lia].
Qed.

Lemma newer_record_int32_witness :
  AddToAgeBucket Int32 (Age CreateResult) 200 100 = bump B_1 (Age CreateResult).
Proof.
  apply newer_record_int32; unfold is_uint32, uint32_max; lia.
Defined.

Lemma counter_bump (k k' : bucket) (b : AgeBuckets) :
  counter k (bump k' b) = counter k b + (if decide (k' = k) then 1 else 0).
Proof. destruct k, k'; simpl; lia. Qed.

Lemma table_loop_histogram (sz : int_size) (approxAge : Z)
  (table : list CAddrInfo) :
  is_uint32 approxAge ->
  Forall (fun a => is_uint32 (Time (Address a))
                   /\ Time (Address a) <= approxAge
                   /\ approxAge - Time (Address a) < 2 ^ 31) table ->
  forall seen age seen' age' k,
    table_loop sz approxAge table seen age = Ok (seen', age') ->
    counter k age' = counter k age + records_of_age approxAge k table.
Proof.
  intros Ha. unfold records_of_age, len.
  induction 1 as [|a rest (Hu & Hle & Hlt) _ IH]; intros seen age seen' age' k; simpl.
  - intros [= _ <-]. lia.
  - destruct (clip_port _) as [bare| |]; simpl; try discriminate.
    intros H. apply (IH _ _ _ _ k) in H. rewrite H.
    rewrite AddToAgeBucket_bump, ipAge_difference, counter_bump by assumption.
    rewrite filter_cons. repeat case_decide; simpl length; try congruence; lia.
Qed.

(** X9: when no record of the two tables is newer than the reference nor
    2^31 seconds older, each counter of the histogram of a table is the
    number of the records of the table whose age, the reference less the
    timestamp, is in the range of the counter. *)
Theorem ComputeStats_histogram (sz : int_size) (bitnodeLines : list string)
  (approxAge : Z) (newTableIPs triedTableIPs : list CAddrInfo)
  (newResults triedResults : Result) :
  is_uint32 approxAge ->
  Forall (fun a => is_uint32 (Time (Address a))
                   /\ Time (Address a) <= approxAge
                   /\ approxAge - Time (Address a) < 2 ^ 31)
    (newTableIPs ++ triedTableIPs) ->
  ComputeStats sz bitnodeLines approxAge newTableIPs triedTableIPs
  = Ok (newResults, triedResults) ->
  forall k,
    counter k (Age newResults) = records_of_age approxAge k newTableIPs
    /\ counter k (Age triedResults) = records_of_age approxAge k triedTableIPs.
Proof.
  intros Ha Hall H k. apply Forall_app in Hall as [Hn Ht].
  apply ComputeStats_returns in H as (nS & nA & tS & tA & Ln & Lt & -> & ->).
  apply (table_loop_histogram sz approxAge _ Ha Hn _ _ _ _ k) in Ln.
  apply (table_loop_histogram sz approxAge _ Ha Ht _ _ _ _ k) in Lt.
  simpl. rewrite Ln, Lt. destruct k; simpl; lia.
Qed.

Lemma ComputeStats_histogram_witness :
  exists newResults triedResults,
    ComputeStats Int64 [] (95 + 86401) sample_table [] = Ok (newResults, triedResults)
    /\ counter B_1_5 (Age newResults) = 2.
Proof.
  destruct (ComputeStats_total Int64 [] (95 + 86401) sample_table []
              sample_table_clippable ltac:(constructor)) as (n & t & H).
  exists n, t. split; [exact H|].
  refine (proj1 (ComputeStats_histogram Int64 [] (95 + 86401) sample_table []
                   n t _ _ H B_1_5)).
  - unfold is_uint32, uint32_max. lia.
  - repeat constructor; unfold is_uint32, uint32_max; simpl; lia.
Defined.

(** ** Reachability matcher *)

Lemma table_loop_keys (sz : int_size) (approxAge : Z) (table : list CAddrInfo) :
  forall (seen : gmap string bool) age seen' age',
    table_loop sz approxAge table seen age = Ok (seen', age') ->
    forall ip, is_Some (seen' !! ip)
               <-> is_Some (seen !! ip) \/ Ok ip ∈ clipped table.
Proof.
  unfold clipped.
  induction table as [|a rest IH]; intros seen age seen' age'; simpl.
  - intros [= <- _] ip. split; [tauto|]. intros [H|H]; [exact H|].
    inversion H.
  - fold (address_string a).
    destruct (clip_port (address_string a)) as [bare| |] eqn:E; simpl;
      try discriminate.
    intros H ip. rewrite (IH _ _ _ _ H ip).
    rewrite lookup_insert. split.
    + intros [Hs|Hr].
      * case_decide; [subst; right; left|left; exact Hs].
      * right. right. exact Hr.
    + intros [Hs|Hr].
      * left. case_decide; [eauto|exact Hs].
      * apply elem_of_cons in Hr as [Hr|Hr].
        -- injection Hr as ->. left. rewrite decide_True by reflexivity. eauto.
        -- right. exact Hr.
Qed.

Lemma found_in_matching (sz : int_size) (approxAge : Z) (table : list CAddrInfo)
  (seen : gmap string bool) (age : AgeBuckets) (lines : list string) :
  table_loop sz approxAge table ∅ (Age CreateResult) = Ok (seen, age) ->
  found_in seen lines = matching_lines table lines.
Proof.
  intros H. unfold found_in, matching_lines. apply list_filter_iff.
  intros ip. rewrite (table_loop_keys _ _ _ _ _ _ _ H ip), lookup_empty.
  split; [intros [[x Hx]|Hr]; [discriminate|exact Hr]|tauto].
Qed.

(** X10: the reachable count of a table is the number of the tokens that
    the scan of the corpus yields (the lines of the file, without their line
    end, up to the first line that is too long for the scanner) that are the
    address string of a record of the table less its last five characters,
    a token counted as often as it occurs; it is at most the number of the
    tokens. *)
Theorem ComputeStats_reachable_count (sz : int_size) (bitnodeLines : list string)
  (approxAge : Z) (newTableIPs triedTableIPs : list CAddrInfo)
  (newResults triedResults : Result) :
  ComputeStats sz bitnodeLines approxAge newTableIPs triedTableIPs
  = Ok (newResults, triedResults) ->
  NumberOfReachableIPs newResults = len (matching_lines newTableIPs bitnodeLines)
  /\ NumberOfReachableIPs triedResults
     = len (matching_lines triedTableIPs bitnodeLines)
  /\ NumberOfReachableIPs newResults <= len bitnodeLines
  /\ NumberOfReachableIPs triedResults <= len bitnodeLines.
Proof.
  intros H.
  apply ComputeStats_returns in H as (nS & nA & tS & tA & Ln & Lt & -> & ->).
  simpl. rewrite (found_in_matching _ _ _ _ _ _ Ln), (found_in_matching _ _ _ _ _ _ Lt).
  unfold matching_lines, len.
  pose proof (length_filter (fun ip => Ok ip ∈ clipped newTableIPs) bitnodeLines).
  pose proof (length_filter (fun ip => Ok ip ∈ clipped triedTableIPs) bitnodeLines).
  repeat split; lia.
Qed.

Lemma ComputeStats_reachable_count_witness :
  exists newResults triedResults,
    ComputeStats Int64 ["1.2.3.4"; "5.6.7.8"; "1.2.3.4"]%string 100 sample_table []
    = Ok (newResults, triedResults)
    /\ NumberOfReachableIPs newResults = 2.
Proof.
  destruct (ComputeStats_total Int64 ["1.2.3.4"; "5.6.7.8"; "1.2.3.4"]%string 100
              sample_table [] sample_table_clippable ltac:(constructor))
    as (n & t & H).
  exists n, t. split; [exact H|].
  exact (proj1 (ComputeStats_reachable_count Int64 _ 100 sample_table [] n t H)).
Defined.

Lemma table_loop_clippable (sz : int_size) (approxAge : Z) (table : list CAddrInfo) :
  forall seen age r,
    table_loop sz approxAge table seen age = Ok r -> Forall clippable table.
Proof.
  induction table as [|a rest IH]; intros seen age r; simpl; [constructor|].
  fold (address_string a).
  destruct (clip_port (address_string a)) as [bare| |] eqn:E; simpl;
    try discriminate.
  intros H. constructor; [|exact (IH _ _ _ H)].
  unfold clippable. unfold clip_port, slice_to in E.
  destruct (Z.ltb_spec (Z.of_nat (String.length (address_string a)) - 5) 0);
    [discriminate|lia].
Qed.

Lemma table_loop_fuel (sz : int_size) (approxAge : Z) (table : list CAddrInfo) :
  forall seen age, table_loop sz approxAge table seen age <> NoFuel.
Proof.
  induction table as [|a rest IH]; intros seen age; simpl; [discriminate|].
  unfold clip_port, slice_to. destruct (_ || _); simpl; [discriminate|].
  apply IH.
Qed.

(** X11: [ComputeStats] returns when, and only when, the address string of
    every record of the two tables has five characters or more; it panics
    otherwise (on the slice of the first shorter one). *)
Theorem ComputeStats_returns_iff (sz : int_size) (bitnodeLines : list string)
  (approxAge : Z) (newTableIPs triedTableIPs : list CAddrInfo) :
  ((exists results,
       ComputeStats sz bitnodeLines approxAge newTableIPs triedTableIPs = Ok results)
   <-> Forall clippable newTableIPs /\ Forall clippable triedTableIPs)
  /\ ComputeStats sz bitnodeLines approxAge newTableIPs triedTableIPs <> NoFuel.
Proof.
  split; [split|].
  - intros [[n t] H].
    apply ComputeStats_returns in H as (nS & nA & tS & tA & Ln & Lt & _).
    split; eapply table_loop_clippable; eassumption.
  - intros [Hn Ht].
    destruct (ComputeStats_total sz bitnodeLines approxAge _ _ Hn Ht)
      as (n & t & H).
    eauto.
  - unfold ComputeStats.
    pose proof (table_loop_fuel sz approxAge newTableIPs ∅ (Age CreateResult)) as Fn.
    pose proof (table_loop_fuel sz approxAge triedTableIPs ∅ (Age CreateResult)) as Ft.
    destruct (table_loop sz approxAge newTableIPs _ _) as [[nS nA]| |]; simpl;
      [|discriminate|congruence].
    destruct (table_loop sz approxAge triedTableIPs _ _) as [[tS tA]| |]; simpl;
      [|discriminate|congruence].
    rewrite scan_loop_filter. discriminate.
Qed.

Lemma ComputeStats_returns_iff_witness :
  exists results,
    ComputeStats Int64 ["1.2.3.4"]%string 100 sample_table [] = Ok results.
Proof.
  apply (proj1 (ComputeStats_returns_iff Int64 ["1.2.3.4"]%string 100 sample_table [])).
  split; [exact sample_table_clippable|constructor].
Defined.

(** X12: the statistics of a table do not depend on the other table: they
    are the ones [ComputeStats] returns for the table next to an empty
    one. *)
Theorem ComputeStats_tables_apart (sz : int_size) (bitnodeLines : list string)
  (approxAge : Z) (newTableIPs triedTableIPs : list CAddrInfo)
  (newResults triedResults : Result) :
  ComputeStats sz bitnodeLines approxAge newTableIPs triedTableIPs
  = Ok (newResults, triedResults) ->
  exists emptyResults,
    ComputeStats sz bitnodeLines approxAge newTableIPs []
    = Ok (newResults, emptyResults)
    /\ ComputeStats sz bitnodeLines approxAge [] triedTableIPs
       = Ok (emptyResults, triedResults).
Proof.
  intros H.
  apply ComputeStats_returns in H as (nS & nA & tS & tA & Ln & Lt & -> & ->).
  eexists. unfold ComputeStats. rewrite Ln, Lt. simpl.
  rewrite !scan_loop_filter. simpl. rewrite !found_in_empty.
  split; reflexivity.
Qed.

Lemma ComputeStats_tables_apart_witness :
  exists newResults triedResults emptyResults,
    ComputeStats Int64 ["1.2.3.4"]%string 100 sample_table sample_table
    = Ok (newResults, triedResults)
    /\ ComputeStats Int64 ["1.2.3.4"]%string 100 sample_table []
       = Ok (newResults, emptyResults).
Proof.
  destruct (ComputeStats_total Int64 ["1.2.3.4"]%string 100 sample_table sample_table
              sample_table_clippable sample_table_clippable) as (n & t & H).
  destruct (ComputeStats_tables_apart Int64 _ 100 sample_table sample_table n t H)
    as (e & He & _).
  exists n, t, e. split; [exact H|exact He].
Defined.

(** ** Address normalization *)

Lemma length_substring_prefix (n : nat) (s : string) :
  (n <= String.length s)%nat -> String.length (String.substring 0 n s) = n.
Proof.
  revert s. induction n as [|n IH]; intros s Hn.
  - destruct s; reflexivity.
  - destruct s as [|c s]; simpl in *; [lia|]. rewrite IH by lia. reflexivity.
Qed.

Lemma all_from_spec (P : Z -> bool) (n : nat) :
  forall k, all_from n k P = true ->
            forall j, k <= j < k + Z.of_nat n -> P j = true.
Proof.
  induction n as [|n IH]; intros k H j Hj; [lia|].
  simpl in H. apply andb_prop in H as [Hk Hrest].
  destruct (Z.eq_dec j k) as [->|Hne]; [exact Hk|].
  apply (IH (k + 1) Hrest). lia.
Qed.

Lemma Itoa_uint16_four_digits (port : Z) :
  0 <= port < 65536 -> String.length (Itoa port) = 4%nat -> 1000 <= port <= 9999.
Proof.
  intros Hp Hlen.
  assert (Hall : all_from (Z.to_nat 65536) 0
                   (fun k => implb (Nat.eqb (String.length (Itoa k)) 4)
                               ((1000 <=? k) && (k <=? 9999))) = true)
    by (vm_compute; reflexivity).
  pose proof (all_from_spec _ _ _ Hall port) as H. clear Hall.
  cbv beta in H. rewrite Hlen in H.
  change (implb (Nat.eqb 4 4) ((1000 <=? port) && (port <=? 9999)))
    with ((1000 <=? port) && (port <=? 9999)) in H.
  assert (Hr : 0 <= port < 0 + Z.of_nat (Z.to_nat 65536)) by lia.
  apply H in Hr. apply andb_prop in Hr as [H1 H2].
  apply Z.leb_le in H1, H2. lia.
Qed.

(** X13: for an address with a 16-bit port, the key that [ComputeStats] puts
    in the map, the address string less its last five characters, is the
    bare address when, and only when, the port has four digits. *)
Theorem clip_port_bare_iff (a : CService) :
  0 <= Port a < 65536 ->
  clip_port (CService_String a) = Ok (IPAddress a) <-> 1000 <= Port a <= 9999.
Proof.
  intros Hp. split; [|apply clip_port_four_digits].
  intros H. apply Itoa_uint16_four_digits; [exact Hp|].
  assert (Hlen : String.length (CService_String a)
                 = (String.length (IPAddress a) + S (String.length (Itoa (Port a))))%nat).
  { unfold CService_String. rewrite length_append. reflexivity. }
  unfold clip_port, slice_to in H.
  destruct (Z.ltb_spec (Z.of_nat (String.length (CService_String a)) - 5) 0);
    [discriminate|].
  destruct (Z.ltb_spec (Z.of_nat (String.length (CService_String a)))
              (Z.of_nat (String.length (CService_String a)) - 5)); [discriminate|].
  simpl in H. injection H as H.
  apply (f_equal String.length) in H.
  rewrite length_substring_prefix in H by lia. lia.
Qed.

Lemma clip_port_bare_iff_witness :
  clip_port (CService_String {| IPAddress := "10.0.0.1"; Port := 8333 |})
  = Ok "10.0.0.1"%string.
Proof.
  apply (clip_port_bare_iff {| IPAddress := "10.0.0.1"; Port := 8333 |}); simpl; lia.
Defined.

(** ** Age estimator *)

Lemma running_max (l : list CAddrInfo) (s : Z) :
  fold_left (fun m a => if m <? Time (Address a) then Time (Address a) else m) l s
  = foldr Z.max s (timestamps l).
Proof.
  revert s. induction l as [|a l IH]; intros s; simpl; [reflexivity|].
  rewrite IH. clear IH.
  assert (Hmax : forall s', foldr Z.max (Z.max (Time (Address a)) s') (timestamps l)
                            = Z.max (Time (Address a)) (foldr Z.max s' (timestamps l))).
  { induction (timestamps l) as [|t ts IHt]; intros s'; simpl; [reflexivity|].
    rewrite IHt. lia. }
  rewrite <- Hmax. f_equal.
  destruct (Z.ltb_spec s (Time (Address a))); lia.
Qed.

Lemma ApproxAge_loop_counted (table : list CAddrInfo) (n : nat) :
  forall (i : nat) (approxAge : Z),
    (i + n <= length table)%nat ->
    ApproxAge_loop n (Z.of_nat i) table approxAge
    = Ok (foldr Z.max approxAge (timestamps (take n (drop i table)))).
Proof.
  induction n as [|n IH]; intros i approxAge Hn; simpl.
  - destruct (drop i table); reflexivity.
  - destruct (index_in_range table (Z.of_nat i)) as (a & Ha & ->);
      [unfold len; lia|].
    rewrite Nat2Z.id in Ha. simpl.
    replace (Z.of_nat i + 1) with (Z.of_nat (S i)) by lia.
    rewrite IH by lia.
    rewrite (drop_S _ _ _ Ha). simpl take.
    rewrite <- !running_max. simpl. reflexivity.
Qed.

Lemma ApproxAge_loop_beyond (table : list CAddrInfo) (n : nat) :
  forall (i : nat) (approxAge : Z),
    (i <= length table < i + n)%nat ->
    ApproxAge_loop n (Z.of_nat i) table approxAge
    = Panicked (IndexOutOfRange (len table) (length table)).
Proof.
  induction n as [|n IH]; intros i approxAge Hn; simpl; [lia|].
  destruct (Nat.eq_dec i (length table)) as [->|Hne].
  - fold (len table). rewrite index_at_length. reflexivity.
  - destruct (index_in_range table (Z.of_nat i)) as (a & Ha & ->);
      [unfold len; lia|].
    simpl. replace (Z.of_nat i + 1) with (Z.of_nat (S i)) by lia.
    apply IH. lia.
Qed.

(** X14: when neither count of a database is larger than its table,
    [ApproxAge] returns the maximum of 0 and of the last-seen timestamps of
    the records that are counted, the first [NNew] new ones and the first
    [NTried] tried ones; a record beyond the count of its table is not
    looked at. *)
Theorem ApproxAge_counted (peersDb : PeersDB) :
  0 <= NNew peersDb <= len (NewAddrInfo peersDb) ->
  0 <= NTried peersDb <= len (TriedAddrInfo peersDb) ->
  ApproxAge peersDb
  = Ok (foldr Z.max 0
          (timestamps (counted (NNew peersDb) (NewAddrInfo peersDb)
                       ++ counted (NTried peersDb) (TriedAddrInfo peersDb)))).
Proof.
  unfold len, counted. intros Hn Ht. unfold ApproxAge.
  rewrite (ApproxAge_loop_counted _ _ 0%nat) by (simpl; lia). simpl.
  rewrite (ApproxAge_loop_counted _ _ 0%nat) by (simpl; lia). simpl.
  rewrite !drop_0. f_equal. unfold timestamps. rewrite map_app, foldr_app.
  generalize (map (fun a => Time (Address a))
                (take (Z.to_nat (NNew peersDb)) (NewAddrInfo peersDb))).
  generalize (map (fun a => Time (Address a))
                (take (Z.to_nat (NTried peersDb)) (TriedAddrInfo peersDb))).
  intros l2 l1.
  induction l1 as [|t l1 IH]; simpl; [reflexivity|].
  rewrite <- IH. clear IH.
  induction l2 as [|u l2 IH2]; simpl; [reflexivity|]. rewrite IH2. lia.
Qed.

Lemma ApproxAge_counted_witness :
  ApproxAge {| NNew := 1; NTried := 0; NewAddrInfo := sample_table;
               TriedAddrInfo := [peer "5.6.7.8" 8333 99] |}
  = Ok 90.
Proof.
  apply (ApproxAge_counted {| NNew := 1; NTried := 0; NewAddrInfo := sample_table;
                              TriedAddrInfo := [peer "5.6.7.8" 8333 99] |});
    unfold len; simpl; lia.
Defined.

(** X15: when a count of a database is larger than its table, as it is when
    the decoder stops before the records that the header announces,
    [ApproxAge] panics with the index of the first record that is missing. *)
Theorem ApproxAge_count_beyond_table (peersDb : PeersDB) :
  (len (NewAddrInfo peersDb) < NNew peersDb ->
   ApproxAge peersDb
   = Panicked (IndexOutOfRange (len (NewAddrInfo peersDb))
                 (length (NewAddrInfo peersDb))))
  /\ (0 <= NNew peersDb <= len (NewAddrInfo peersDb) ->
      len (TriedAddrInfo peersDb) < NTried peersDb ->
      ApproxAge peersDb
      = Panicked (IndexOutOfRange (len (TriedAddrInfo peersDb))
                    (length (TriedAddrInfo peersDb)))).
Proof.
  unfold ApproxAge. split.
  - intros Hn. rewrite (ApproxAge_loop_beyond _ _ 0%nat); [reflexivity|].
    unfold len in Hn. lia.
  - intros Hn Ht. rewrite (ApproxAge_loop_counted _ _ 0%nat) by (unfold len in Hn; simpl; lia).
    simpl. rewrite (ApproxAge_loop_beyond _ _ 0%nat); [reflexivity|].
    unfold len in Ht. lia.
Qed.

Lemma ApproxAge_count_beyond_table_witness :
  ApproxAge {| NNew := 3; NTried := 0; NewAddrInfo := sample_table;
               TriedAddrInfo := [] |}
  = Panicked (IndexOutOfRange 2 2).
Proof.
  apply (proj1 (ApproxAge_count_beyond_table
                  {| NNew := 3; NTried := 0; NewAddrInfo := sample_table;
                     TriedAddrInfo := [] |})).
  unfold len. simpl. lia.
Defined.

(** ** The run *)

(** X16: a run whose timestamp file is empty, or cannot be opened, panics
    in the snapshot locator with an index out of range, after the age
    estimation; it computes no statistics and writes no output. *)
Theorem main_no_timestamps (sz : int_size) (w : World) (peersDb : PeersDB)
  (err : option string) (approxAge : Z) :
  NewPeersDB w = (peersDb, err) ->
  tsFile w = [] ->
  ApproxAge peersDb = Ok approxAge ->
  main sz w
  = (printed err ++ [Call_ApproxAge peersDb; Call_ClosestBitnodeTS approxAge],
     Panicked (IndexOutOfRange 0 0)).
Proof.
  intros H Hts Ha. rewrite (main_cases sz w peersDb err H), Ha, Hts. reflexivity.
Qed.

Lemma main_no_timestamps_witness :
  main Int64 {| NewPeersDB := (sample_db, None); tsFile := [];
                bitnodeFile := fun _ => [] |}
  = ([Call_ApproxAge sample_db; Call_ClosestBitnodeTS 99],
     Panicked (IndexOutOfRange 0 0)).
Proof.
  exact (main_no_timestamps Int64
           {| NewPeersDB := (sample_db, None); tsFile := [];
              bitnodeFile := fun _ => [] |} sample_db None 99
           eq_refl eq_refl eq_refl).
Defined.

(** The events of a list that may be the one in [H]. *)
Ltac no_output H :=
  repeat (apply elem_of_cons in H as [H|H]; [try discriminate H|]);
  try (apply elem_of_nil in H; destruct H).

(** X17: a run writes output when, and only when, its three stages have
    returned; what it writes then are the results of [ComputeStats] for the
    age of [ApproxAge] and the bitnode file of the timestamp of
    [ClosestBitnodeTS]. *)
Theorem main_output_iff (sz : int_size) (w : World) (peersDb : PeersDB)
  (err : option string) (approxAge : Z) (newResult triedResult : Result) :
  NewPeersDB w = (peersDb, err) ->
  Call_WriteOutput approxAge newResult triedResult ∈ (main sz w).1
  <-> ApproxAge peersDb = Ok approxAge
      /\ (exists bitnodeTS,
             ClosestBitnodeTS (tsFile w) approxAge = Ok bitnodeTS
             /\ ComputeStats sz (bitnodeFile w (int_of_uint32 sz bitnodeTS))
                  approxAge (NewAddrInfo peersDb) (TriedAddrInfo peersDb)
                = Ok (newResult, triedResult))
      /\ (main sz w).2 = Ok (WriteOutput sz approxAge newResult triedResult).
Proof.
  intros H. rewrite (main_cases sz w peersDb err H).
  assert (Hp : forall l, Call_WriteOutput approxAge newResult triedResult
                         ∈ printed err ++ l
                         -> Call_WriteOutput approxAge newResult triedResult ∈ l).
  { intros l [Hin|Hin]%elem_of_app; [|exact Hin].
    destruct err; simpl in Hin; [|inversion Hin].
    apply list_elem_of_singleton in Hin. discriminate Hin. }
  split.
  - destruct (ApproxAge peersDb) as [a| |]; cbn [fst snd];
      [|intros Hin%Hp; no_output Hin..].
    destruct (ClosestBitnodeTS (tsFile w) a) as [ts| |] eqn:Hts; cbn [fst snd];
      [|intros Hin%Hp; no_output Hin..].
    destruct (ComputeStats _ _ _ _ _) as [[n t]| |] eqn:Hc; cbn [fst snd];
      [|intros Hin%Hp; no_output Hin..].
    intros Hin%Hp. no_output Hin.
    injection Hin as -> -> ->. split; [reflexivity|]. split; [|reflexivity].
    exists ts. split; [exact Hts|exact Hc].
  - intros (-> & (ts & -> & ->) & _). cbn [fst snd].
    apply elem_of_app. right. do 3 right. left.
Qed.

Lemma main_output_iff_witness :
  exists newResult triedResult,
    Call_WriteOutput 0 newResult triedResult ∈ (main Int64 failed_world).1
    /\ (main Int64 failed_world).2 = Ok (WriteOutput Int64 0 newResult triedResult).
Proof.
  destruct (ComputeStats Int64 [] 0 [] []) as [[n t]| |] eqn:Hc;
    [|discriminate Hc..].
  exists n, t.
  assert (Hin : Call_WriteOutput 0 n t ∈ (main Int64 failed_world).1).
  { injection Hc as <- <-. vm_compute. do 4 right. left. }
  split; [exact Hin|].
  exact (proj2 (proj2 (proj1
    (main_output_iff Int64 failed_world empty_db (Some "unexpected EOF"%string)
       0 n t eq_refl) Hin))).
Defined.

(** X18: the line that a run writes for a table gives as total the number
    of the records of the table, its five age counts add up to that total,
    and the two lines carry the same date. *)
Theorem main_rows_totals (sz : int_size) (w : World) (peersDb : PeersDB)
  (err : option string) (newRow triedRow : Row) :
  NewPeersDB w = (peersDb, err) ->
  (main sz w).2 = Ok (newRow, triedRow) ->
  Total_IPs newRow = len (NewAddrInfo peersDb)
  /\ Total_IPs triedRow = len (TriedAddrInfo peersDb)
  /\ Age_1 newRow + Age_1_5 newRow + Age_5_10 newRow + Age_10_30 newRow
     + Age_30 newRow = Total_IPs newRow
  /\ Age_1 triedRow + Age_1_5 triedRow + Age_5_10 triedRow + Age_10_30 triedRow
     + Age_30 triedRow = Total_IPs triedRow
  /\ Approx_Peerdat_Date newRow = Approx_Peerdat_Date triedRow.
Proof.
  intros H. rewrite (main_cases sz w peersDb err H).
  destruct (ApproxAge peersDb) as [a| |]; cbn [snd]; try discriminate.
  destruct (ClosestBitnodeTS (tsFile w) a) as [ts| |]; cbn [snd]; try discriminate.
  destruct (ComputeStats _ _ _ _ _) as [[n t]| |] eqn:Hc; cbn [snd];
    try discriminate.
  intros [= <- <-].
  apply ComputeStats_returns in Hc as (nS & nA & tS & tA & Ln & Lt & -> & ->).
  apply table_loop_buckets in Ln, Lt. unfold bucket_sum in Ln, Lt.
  simpl in *. repeat split; lia.
Qed.

Lemma main_rows_totals_witness :
  exists newRow triedRow,
    (main Int64 sample_world).2 = Ok (newRow, triedRow)
    /\ Total_IPs newRow = 2
    /\ Total_IPs triedRow = 1
    /\ Age_1 newRow + Age_1_5 newRow + Age_5_10 newRow + Age_10_30 newRow
       + Age_30 newRow = 2.
Proof.
  destruct (main Int64 sample_world).2 as [[newRow triedRow]| |] eqn:E;
    [|vm_compute in E; discriminate E..].
  exists newRow, triedRow. split; [reflexivity|].
  destruct (main_rows_totals Int64 sample_world sample_db None newRow triedRow
              eq_refl E) as (Hn & Ht & Sn & _).
  split; [exact Hn|]. split; [exact Ht|]. rewrite Sn. exact Hn.
Defined.

Lemma int_of_uint32_int64 (x : Z) : is_uint32 x -> int_of_uint32 Int64 x = x.
Proof.
  unfold is_uint32, uint32_max, int_of_uint32. intros Hx. simpl int_bits.
  rewrite Z.mod_small by lia. change (2 ^ 64 / 2) with (2 ^ 63).
  destruct (Z.ltb_spec x (2 ^ 63)); lia.
Qed.

Lemma daysOldestIP_int64_aux (approxAge oldestIPAge : Z) :
  is_uint32 approxAge -> is_uint32 oldestIPAge ->
  daysOldestIP Int64 approxAge oldestIPAge = (approxAge - oldestIPAge) ÷ 86400
  /\ (oldestIPAge <= approxAge -> 0 <= daysOldestIP Int64 approxAge oldestIPAge).
Proof.
  intros Ha Ho.
  assert (H : daysOldestIP Int64 approxAge oldestIPAge
              = (approxAge - oldestIPAge) ÷ 86400).
  { unfold daysOldestIP.
    rewrite (int_of_uint32_int64 approxAge Ha), (int_of_uint32_int64 oldestIPAge Ho).
    change ONE_DAY with 86400. f_equal.
    unfold int_wrap, is_uint32, uint32_max in *. simpl int_bits.
    change (2 ^ 64 / 2) with (2 ^ 63).
    destruct (Z.le_gt_cases oldestIPAge approxAge).
    - rewrite Z.mod_small by lia.
      destruct (Z.ltb_spec (approxAge - oldestIPAge) (2 ^ 63)); lia.
    - replace ((approxAge - oldestIPAge) mod 2 ^ 64)
        with (approxAge - oldestIPAge + 2 ^ 64).
      2:{ symmetry.
          rewrite <- (Z.mod_small (approxAge - oldestIPAge + 2 ^ 64) (2 ^ 64)) by lia.
          rewrite <- (Z_mod_plus_full (approxAge - oldestIPAge) 1 (2 ^ 64)).
          f_equal; lia. }
      destruct (Z.ltb_spec (approxAge - oldestIPAge + 2 ^ 64) (2 ^ 63)); lia. }
  rewrite H. split; [reflexivity|].
  intros Hle. apply Z.quot_pos; lia.
Qed.

(** X19: where [int] has 64 bits, the age in days of the oldest record is
    the quotient, rounded towards zero, of the difference of the reference
    and of the timestamp by the seconds of a day; it is negative for a
    timestamp that is a day or more after the reference. *)
Theorem daysOldestIP_int64 (approxAge oldestIPAge : Z) :
  is_uint32 approxAge -> is_uint32 oldestIPAge ->
  daysOldestIP Int64 approxAge oldestIPAge = (approxAge - oldestIPAge) ÷ 86400
  /\ (oldestIPAge <= approxAge -> 0 <= daysOldestIP Int64 approxAge oldestIPAge)
  /\ (approxAge + 86400 <= oldestIPAge ->
      daysOldestIP Int64 approxAge oldestIPAge < 0).
Proof.
  intros Ha Ho.
  destruct (daysOldestIP_int64_aux approxAge oldestIPAge Ha Ho) as [H Hpos].
  split; [exact H|]. split; [exact Hpos|].
  intros Hlt. rewrite H.
  rewrite <- (Z.opp_involutive (approxAge - oldestIPAge)), Z.quot_opp_l by lia.
  assert (1 <= (- (approxAge - oldestIPAge)) ÷ 86400); [|lia].
  rewrite Z.quot_div_nonneg by lia. apply Z.div_le_lower_bound; lia.
Qed.

Lemma daysOldestIP_int64_witness :
  daysOldestIP Int64 1600000000 1599000000 = 11.
Proof.
  refine (proj1 (daysOldestIP_int64 1600000000 1599000000 _ _));
    unfold is_uint32, uint32_max; lia.
Defined.

Lemma OldestIP_uint32 (table : list CAddrInfo) :
  Forall (fun a => is_uint32 (Time (Address a))) table ->
  is_uint32 (OldestIP table).
Proof.
  rewrite OldestIP_min. unfold is_uint32, uint32_max, timestamps.
  induction 1 as [|a l Ha _ IH]; simpl; lia.
Qed.

(** X20: where [int] has 64 bits, in the line that a run writes for a table
    with records, of a database whose counts are the lengths of its tables,
    the age in days of the oldest record is not negative: it is the whole
    number of days from the oldest timestamp of the table, or from
    2000000000 if that is earlier, to the date of the line. *)
Theorem main_oldest_days (w : World) (peersDb : PeersDB) (err : option string)
  (newRow triedRow : Row) :
  NewPeersDB w = (peersDb, err) ->
  counts_match peersDb ->
  Forall (fun a => is_uint32 (Time (Address a))) (records peersDb) ->
  (main Int64 w).2 = Ok (newRow, triedRow) ->
  (NewAddrInfo peersDb <> [] ->
   0 <= Oldest_IP_Days newRow
   /\ Oldest_IP_Days newRow
      = (Approx_Peerdat_Date newRow - OldestIP (NewAddrInfo peersDb)) ÷ 86400)
  /\ (TriedAddrInfo peersDb <> [] ->
      0 <= Oldest_IP_Days triedRow
      /\ Oldest_IP_Days triedRow
         = (Approx_Peerdat_Date triedRow - OldestIP (TriedAddrInfo peersDb)) ÷ 86400).
Proof.
  intros H Hc Hu. rewrite (main_cases Int64 w peersDb err H).
  rewrite (ApproxAge_max peersDb Hc).
  set (a := foldr Z.max 0 (timestamps (records peersDb))).
  assert (Ua : is_uint32 a).
  { apply foldr_max_uint32. unfold timestamps. apply Forall_fmap.
    exact Hu. }
  assert (Hup : forall x, x ∈ records peersDb -> Time (Address x) <= a).
  { intros x Hx. apply foldr_max_upper. unfold timestamps.
    apply list_elem_of_fmap. exists x. done. }
  unfold records in Hu. apply Forall_app in Hu as [Hun Hut].
  destruct (ClosestBitnodeTS (tsFile w) a) as [ts| |]; cbn [snd]; try discriminate.
  destruct (ComputeStats _ _ _ _ _) as [[n t]| |] eqn:Hs; cbn [snd];
    try discriminate.
  intros [= <- <-].
  apply ComputeStats_returns in Hs as (nS & nA & tS & tA & _ & _ & -> & ->).
  simpl.
  assert (Hgen : forall table,
             Forall (fun x => is_uint32 (Time (Address x))) table ->
             (forall x, x ∈ table -> x ∈ records peersDb) ->
             table <> [] ->
             0 <= daysOldestIP Int64 a (OldestIP table)
             /\ daysOldestIP Int64 a (OldestIP table)
                = (a - OldestIP table) ÷ 86400).
  { intros table Ut Hsub Hne.
    destruct (daysOldestIP_int64_aux a (OldestIP table) Ua (OldestIP_uint32 _ Ut))
      as (Heq & Hpos).
    split; [|exact Heq]. apply Hpos.
    destruct table as [|x l]; [congruence|].
    assert (Hx : x ∈ x :: l) by left.
    pose proof (OldestIP_lower _ _ Hx). pose proof (Hup x (Hsub x Hx)). lia. }
  split; intros Hne; apply Hgen; try assumption; intros x Hx; unfold records;
    apply elem_of_app; [left|right]; exact Hx.
Qed.

Lemma main_oldest_days_witness :
  exists newRow triedRow,
    (main Int64 sample_world).2 = Ok (newRow, triedRow)
    /\ 0 <= Oldest_IP_Days newRow.
Proof.
  destruct (main Int64 sample_world).2 as [[newRow triedRow]| |] eqn:E;
    [|discriminate E..].
  exists newRow, triedRow. split; [reflexivity|].
  refine (proj1 (proj1 (main_oldest_days sample_world sample_db None
                          newRow triedRow eq_refl _ _ E) _)).
  - split; reflexivity.
  - repeat constructor; unfold is_uint32, uint32_max; simpl; lia.
  - discriminate.
Defined.

(** ** Writing an array to a file *)

Lemma append_assoc (s t u : string) : ((s ++ t) ++ u = s ++ (t ++ u))%string.
Proof.
  induction s as [|c s IH]; [reflexivity|].
  change (String c ((s ++ t) ++ u) = String c (s ++ (t ++ u)))%string.
  f_equal. exact IH.
Qed.

Lemma append_empty_r (s : string) : (s ++ "" = s)%string.
Proof.
  induction s as [|c s IH]; [reflexivity|].
  change (String c (s ++ "") = String c s)%string. f_equal. exact IH.
Qed.

Lemma WriteArrayToFile_cons (file s : string) (rest : list string) :
  WriteArrayToFile file (s :: rest)
  = WriteArrayToFile (file ++ (s ++ newline)) rest.
Proof. reflexivity. Qed.

Lemma WriteArrayToFile_append (array : list string) :
  forall file,
    WriteArrayToFile file array = (file ++ WriteArrayToFile "" array)%string.
Proof.
  induction array as [|s rest IH]; intros file.
  - change (file = file ++ "")%string. rewrite append_empty_r. reflexivity.
  - rewrite !WriteArrayToFile_cons, IH, (IH ("" ++ (s ++ newline))%string).
    change ("" ++ (s ++ newline))%string with (s ++ newline)%string.
    rewrite append_assoc. reflexivity.
Qed.

Lemma lines_from_line (s : string) :
  one_line s ->
  forall cur rest,
    lines_from cur (s ++ newline ++ rest) = (cur ++ s)%string :: lines_from "" rest.
Proof.
  induction s as [|c s IH]; intros Hs cur rest.
  - change (cur :: lines_from "" rest = (cur ++ "")%string :: lines_from "" rest).
    rewrite append_empty_r. reflexivity.
  - destruct Hs as [Hc Hs].
    change (lines_from cur (String c s ++ newline ++ rest))
      with (if Ascii.eqb c "010"%char
            then cur :: lines_from "" (s ++ newline ++ rest)
            else lines_from (cur ++ String c "") (s ++ newline ++ rest)).
    destruct (Ascii.eqb_spec c "010"%char) as [->|_]; [congruence|].
    rewrite (IH Hs), append_assoc. reflexivity.
Qed.

(** X21: [WriteArrayToFile] adds to the file the elements of the array in
    order, each followed by a line feed; when no element holds a line feed,
    the lines of what it writes to an empty file are the elements of the
    array. *)
Theorem WriteArrayToFile_lines (file : string) (array : list string) :
  WriteArrayToFile file array
  = (file ++ foldr (fun s text => s ++ newline ++ text) "" array)%string
  /\ (Forall one_line array ->
      lines_from "" (WriteArrayToFile "" array) = array).
Proof.
  split.
  - revert file. induction array as [|s rest IH]; intros file.
    + change (file = file ++ "")%string. rewrite append_empty_r. reflexivity.
    + rewrite WriteArrayToFile_cons, IH, append_assoc. f_equal.
      simpl foldr. rewrite append_assoc. reflexivity.
  - induction 1 as [|s rest Hs _ IH]; [reflexivity|].
    rewrite WriteArrayToFile_cons, WriteArrayToFile_append.
    change ("" ++ (s ++ newline))%string with (s ++ newline)%string.
    rewrite append_assoc, (lines_from_line s Hs), IH. reflexivity.
Qed.

Lemma WriteArrayToFile_lines_witness :
  lines_from "" (WriteArrayToFile "" ["1.2.3.4"; "5.6.7.8"]%string)
  = ["1.2.3.4"; "5.6.7.8"]%string.
Proof.
  apply (proj2 (WriteArrayToFile_lines "" ["1.2.3.4"; "5.6.7.8"]%string)).
  repeat constructor; discriminate.
Defined.
